(** * The toolbar indicator of 10ten Japanese Reader

    A shallow embedding of [src/background/browser-action.ts]: the derivation
    of the icon file name, the tooltip and the badge from a state snapshot
    ([doUpdateBrowserAction], [setIcon], [setDefaultToolbarIcon]), the loop
    that serialises updates ([updateBrowserAction]) and the rate limiter the
    tooltip goes through ([throttledSetTitle]).

    Layout: the JavaScript runtime functions the code calls, the data model,
    the derivation, the update loop as a machine over host events, the rate
    limiter; then the lemmas and theorems. *)

From Stdlib Require Import ZArith String Ascii List Bool Lia DecimalString.
From Stdlib Require Import Floats Uint63.
Import ListNotations.

Set Warnings "-inexact-float".
Open Scope string_scope.
Open Scope list_scope.
Open Scope Z_scope.

(* ================================================================== *)
(** ** The JavaScript runtime, as far as the code uses it *)
(* ================================================================== *)

Module JS.

(** A [number] is a binary64 float. *)
Definition number := float.

(** [Math.round(x)]: the integer nearest to [x], a tie going towards
    +Infinity; NaN, the infinities and the zeros are returned as they are,
    and a result in [-0.5, 0) is -0.  The rounding is exact (it is not
    [floor(x + 0.5)] computed in floating point). *)
Definition Math_round (x : number) : number :=
  match Prim2SF x with
  | S754_finite s m e =>
      if 0 <=? e then x
      else
        let num := if s then Z.neg m else Z.pos m in
        let n := (2 * num + 2 ^ (- e)) / 2 ^ (1 - e) in
        if n =? 0 then (if s then neg_zero else zero)
        else if n <? 0 then (- of_uint63 (Uint63.of_Z (- n)))%float
        else of_uint63 (Uint63.of_Z n)
  | _ => x
  end.

(** [arr.push(x1, ..., xn)] on an array held in a [let] variable. *)
Definition push {A : Type} (arr items : list A) : list A := arr ++ items.

(** [arr.includes(x)] on an array of strings. *)
Definition includes (arr : list string) (x : string) : bool :=
  existsb (String.eqb x) arr.

(** [arr.join(sep)]. *)
Definition join (arr : list string) (sep : string) : string :=
  String.concat sep arr.

(** [arr.some(pred)]. *)
Definition some {A : Type} (arr : list A) (pred : A -> bool) : bool :=
  existsb pred arr.

(** The decimal digits of a natural number. *)
Definition digits (n : Z) : string :=
  NilZero.string_of_uint (N.to_uint (Z.to_N n)).

(** [n] copies of the digit 0. *)
Definition zeros (n : Z) : string :=
  String.concat "" (repeat "0" (Z.to_nat n)).

(** The shortest decimal that rounds to the double [m * 2^e]: the pair
    [(s, p)] stands for [s * 10^p].  The search goes down from the
    exponent [p], and at the first exponent where a multiple of [10^p]
    rounds to the double it takes the one nearest to it (the even one on
    a tie).  A decimal rounds to the double when it lies between the
    midpoints to the neighbouring doubles, the midpoints included when
    [m] is even; below a power of two the lower neighbour is half as
    far.  All comparisons are on integers, in units of [2^(e-2)].  The
    search starts above the number and ends no more than 17 digits below
    its first digit, which is within 450 steps for every double. *)
Fixpoint shortest (fuel : nat) (m e p : Z) : Z * Z :=
  match fuel with
  | O => (0, p)
  | S fuel =>
      let E := e - 2 in
      let P := 10 ^ Z.max p 0 * 2 ^ Z.max (- E) 0 in
      let Q := 10 ^ Z.max (- p) 0 * 2 ^ Z.max E 0 in
      let x := 4 * m in
      let hi := 4 * m + 2 in
      let lo := if (m =? 2 ^ 52) && (-1074 <? e) then 4 * m - 1
                else 4 * m - 2 in
      let inside (s : Z) :=
        (0 <? s)
        && (if Z.even m then (lo * Q <=? s * P) && (s * P <=? hi * Q)
            else (lo * Q <? s * P) && (s * P <? hi * Q)) in
      let below := (x * Q) / P in
      let above := below + 1 in
      let dBelow := x * Q - below * P in
      let dAbove := above * P - x * Q in
      if inside below && inside above then
        if dBelow <? dAbove then (below, p)
        else if dAbove <? dBelow then (above, p)
        else if Z.even below then (below, p) else (above, p)
      else if inside below then (below, p)
      else if inside above then (above, p)
      else shortest fuel m e (p - 1)
  end.

(** [Number::toString(x)] of ECMAScript, radix 10, for the positive
    finite [x = m * 2^e]: with [k] digits and [n] the position of the
    decimal point, the digits and zeros of an integer up to 10^21, a
    decimal fraction down to 10^-6, and exponent notation beyond. *)
Definition positive_toString (m e : Z) : string :=
  let start := Z.log2 (m * 2 ^ Z.max e 0) / 3 + 1 in
  let '(s, p) := shortest 450 m e start in
  let ds := digits s in
  let k := Z.of_nat (String.length ds) in
  let n := p + k in
  let first (i : Z) := substring O (Z.to_nat i) ds in
  let from (i : Z) := substring (Z.to_nat i) (Z.to_nat (k - i)) ds in
  if (k <=? n) && (n <=? 21) then (ds ++ zeros (n - k))%string
  else if (0 <? n) && (n <=? 21) then (first n ++ "." ++ from n)%string
  else if (-6 <? n) && (n <=? 0) then ("0." ++ zeros (- n) ++ ds)%string
  else
    let sign := if 0 <=? n - 1 then "e+" else "e-" in
    let exponent := (sign ++ digits (Z.abs (n - 1)))%string in
    if k =? 1 then (ds ++ exponent)%string
    else (first 1 ++ "." ++ from 1 ++ exponent)%string.

(** [String(x)] and [x + '']: the conversion of a number to a string.
    It is the instance of the environment's [Number_toString] the
    examples use. *)
Definition Number_toString (x : number) : string :=
  match Prim2SF x with
  | S754_nan => "NaN"
  | S754_infinity false => "Infinity"
  | S754_infinity true => "-Infinity"
  | S754_zero _ => "0"
  | S754_finite s m e =>
      ((if s then "-" else "") ++ positive_toString (Z.pos m) e)%string
  end.

End JS.

(* ================================================================== *)
(** ** Data model *)
(* ================================================================== *)

(** The keys of [seriesColors] and of [jpdictState]: the data series. *)
Inductive DataSeries : Type := words | names | kanji | radicals.

(** [toolbarIcon: 'default' | 'sky']. *)
Inductive ToolbarIcon : Type := default | sky.

(** Modelled from the spec: the declaration of [jpdictState.updateState]
    is not among the sources; the variants are the spec's
    [UpdateProgressState], with the fields the code reads.  Every [type]
    other than ['checking'] and ['updating'] takes no branch of the
    [switch] and is [idle] here. *)
Inductive UpdateState : Type :=
  | idle
  | checking (series : DataSeries)
  | updating (series : DataSeries) (totalProgress : JS.number).

Arguments updating series totalProgress%_float.

(** [jpdictState.updateError], of which the code reads [name] only. *)
Record UpdateError : Type := { name : string }.

(** Modelled from the spec: [JpdictStateWithFallback] is declared in
    [./jpdict], which is not among the sources.  The fields are those
    [doUpdateBrowserAction] reads; a load state is the string the code
    compares it with. *)
Record JpdictStateWithFallback : Type := {
  words_state : string;          (* jpdictState.words.state *)
  words_fallbackState : string;  (* jpdictState.words.fallbackState *)
  names_state : string;          (* jpdictState.names.state *)
  kanji_state : string;          (* jpdictState.kanji.state *)
  radicals_state : string;       (* jpdictState.radicals.state *)
  updateState : UpdateState;
  updateError : option UpdateError
}.

(** [jpdictState[series].state]. *)
Definition state (jpdictState : JpdictStateWithFallback) (series : DataSeries)
  : string :=
  match series with
  | words => words_state jpdictState
  | names => names_state jpdictState
  | kanji => kanji_state jpdictState
  | radicals => radicals_state jpdictState
  end.

(** [interface BrowserActionState]. *)
Record BrowserActionState : Type := {
  enabled : bool;
  jpdictState : JpdictStateWithFallback;
  tabId : option Z;
  toolbarIcon : ToolbarIcon
}.

(** A localized string, identified by the request made for it:
    [browser.i18n.getMessage(messageName, substitutions)]. *)
Record Message : Type := {
  messageName : string;
  substitutions : list string
}.

Definition getMessage (messageName : string) (substitutions : list string)
  : Message :=
  {| messageName := messageName; substitutions := substitutions |}.

(** The two action surfaces of the host: [browser.browserAction] and the
    optional [browser.composeAction]. *)
Inductive Surface : Type := browserAction | composeAction.

(** The [path] of a [setIcon] call: one SVG file or three PNG sizes. *)
Inductive IconPath : Type :=
  | svg (path : string)
  | png (path16 path32 path48 : string).

(** A call into the host.  A call on [composeAction] passes no [tabId]. *)
Inductive HostCall : Type :=
  | setIcon_ (on : Surface) (path : IconPath) (tab : option Z)
  | setBadgeText (on : Surface) (text : string) (tab : option Z)
  | setBadgeBackgroundColor (on : Surface) (color : string) (tab : option Z)
  | setTitle (on : Surface) (title : Message) (tab : option Z).

(** What an [async] function body does with the host, in order: it awaits
    a host call (a suspension point: the call may resolve or reject), or it
    hands a title to the rate limiter and goes on at once. *)
Inductive Instr : Type :=
  | await (call : HostCall)
  | throttledSetTitle (title : Message) (tab : option Z).

(** What the code takes from outside the sources. *)
Record Environment : Type := {
  (** [allMajorDataSeries] of [@birchill/jpdict-idb]. *)
  allMajorDataSeries : list DataSeries;
  (** [getLocalizedDataSeriesLabel] of [../common/data-series-labels]. *)
  getLocalizedDataSeriesLabel : DataSeries -> string;
  (** The build constant [__SUPPORTS_SVG_ICONS__]. *)
  SUPPORTS_SVG_ICONS : bool;
  (** Whether [browser.composeAction] is defined. *)
  hasComposeAction : bool;
  (** Number to string, as [+ 'p'] and [String(...)] convert. *)
  Number_toString : JS.number -> string
}.

(* ================================================================== *)
(** ** The derivation and its host calls *)
(* ================================================================== *)

(** [const seriesColors]. *)
Definition seriesColors (series : DataSeries) : string :=
  match series with
  | words => "green"
  | names => "blue"
  | kanji => "purple"
  | radicals => "purple"
  end.

(** Lines 64-70: the stem and the variant. *)
Definition applyVariant (toolbarIcon : ToolbarIcon) : list string :=
  let iconFilenameParts := ["10ten"] in
  match toolbarIcon with
  | sky => JS.push iconFilenameParts ["sky"]
  | default => iconFilenameParts
  end.

(** Lines 72-97: the base icon type and text. *)
Definition chooseBase (enabled : bool) (jpdictState : JpdictStateWithFallback)
  (iconFilenameParts : list string) : list string * Message :=
  if enabled then
    let jpdictWords := words_state jpdictState in
    let fallbackWords := words_fallbackState jpdictState in
    if (jpdictWords =? "ok")%string || (fallbackWords =? "ok")%string then
      (iconFilenameParts, getMessage "command_toggle_enabled" [])
    else if (jpdictWords =? "init")%string
            || (fallbackWords =? "loading")%string then
      (iconFilenameParts, getMessage "command_toggle_loading" [])
    else if (fallbackWords =? "unloaded")%string then
      (iconFilenameParts, getMessage "command_toggle_enabled" [])
    else
      (JS.push iconFilenameParts ["error"],
       getMessage "error_loading_dictionary" [])
  else
    (JS.push iconFilenameParts ["disabled"],
     getMessage "command_toggle_disabled" []).

Section Derivation.

Variable env : Environment.

(** Lines 106-136: the overlay of the update state. *)
Definition overlayUpdateState (jpdictState : JpdictStateWithFallback)
  (base : list string * Message) : list string * Message :=
  let '(iconFilenameParts, tooltip) := base in
  match updateState jpdictState with
  | checking series =>
      (JS.push iconFilenameParts ["0p"; seriesColors series],
       getMessage "command_toggle_checking" [])
  | updating series totalProgress =>
      let iconFilenameParts :=
        if negb (JS.includes iconFilenameParts "error") then
          JS.push iconFilenameParts
            [(Number_toString env (JS.Math_round (totalProgress * 5) * 20)%float
                ++ "p")%string;
             seriesColors series]
        else iconFilenameParts in
      let dbLabel := getLocalizedDataSeriesLabel env series in
      let progressAsPercent := JS.Math_round (totalProgress * 100)%float in
      (iconFilenameParts,
       getMessage "command_toggle_downloading"
         [dbLabel; Number_toString env progressAsPercent])
  | idle => (iconFilenameParts, tooltip)
  end.

(** Lines 64-136 together: the parts of the icon file name and the
    tooltip before the error overlay. *)
Definition deriveIcon (params : BrowserActionState) : list string * Message :=
  overlayUpdateState (jpdictState params)
    (chooseBase (enabled params) (jpdictState params)
       (applyVariant (toolbarIcon params))).

Definition iconFilenameParts (params : BrowserActionState) : list string :=
  fst (deriveIcon params).

(** Line 142. *)
Definition iconFilename (params : BrowserActionState) : string :=
  JS.join (iconFilenameParts params) "-".

(** [browser.composeAction?.f(...)]: the call when the surface exists. *)
Definition optional (call : HostCall) : list Instr :=
  if hasComposeAction env then [await call] else [].

(** The [details] of [setIcon], on either side of
    [if (__SUPPORTS_SVG_ICONS__)]. *)
Definition iconDetails (iconFilename : string) : IconPath :=
  if SUPPORTS_SVG_ICONS env then
    svg ("images/" ++ iconFilename ++ ".svg")%string
  else
    png ("images/" ++ iconFilename ++ "-16.png")%string
        ("images/" ++ iconFilename ++ "-32.png")%string
        ("images/" ++ iconFilename ++ "-48.png")%string.

(** [async function setIcon(iconFilename, tabId)]. *)
Definition setIcon (iconFilename : string) (tabId : option Z) : list Instr :=
  let details := iconDetails iconFilename in
  [await (setIcon_ browserAction details tabId)]
    ++ optional (setIcon_ composeAction details None).

(** Lines 147-158: the condition of the warning overlay. *)
Definition hasNotOkDatabase (jpdictState : JpdictStateWithFallback) : bool :=
  JS.some (allMajorDataSeries env)
    (fun series => negb (state jpdictState series =? "ok")%string).

Definition showUpdateError (jpdictState : JpdictStateWithFallback) : bool :=
  hasNotOkDatabase jpdictState
  && match updateError jpdictState with
     | Some updateError =>
         negb (name updateError =? "AbortError")%string
         && negb (name updateError =? "QuotaExceededError")%string
     | None => false
     end.

(** Lines 145-170: the badge, and the tooltip after the warning
    overlay. *)
Definition overlayUpdateError (jpdictState : JpdictStateWithFallback)
  (tabId : option Z) (tooltip : Message) : list Instr * Message :=
  if showUpdateError jpdictState then
    ([await (setBadgeText browserAction "!" tabId)]
       ++ optional (setBadgeText composeAction "!" None)
       ++ [await (setBadgeBackgroundColor browserAction "yellow" tabId)]
       ++ optional (setBadgeBackgroundColor composeAction "yellow" None),
     getMessage "command_toggle_update_error" [])
  else
    ([await (setBadgeText browserAction "" tabId)]
       ++ optional (setBadgeText composeAction "" None),
     tooltip).

(** The tooltip a cycle ends up with (the [tooltip] of line 173). *)
Definition tooltipOf (params : BrowserActionState) : Message :=
  snd (overlayUpdateError (jpdictState params) (tabId params)
         (snd (deriveIcon params))).

(** [async function doUpdateBrowserAction]: what one render cycle does
    with the host, in the order of the source. *)
Definition doUpdateBrowserAction (params : BrowserActionState) : list Instr :=
  let tabId := tabId params in
  let jpdictState := jpdictState params in
  let '(iconFilenameParts, tooltip) := deriveIcon params in
  let iconFilename := JS.join iconFilenameParts "-" in
  let '(badge, tooltip) := overlayUpdateError jpdictState tabId tooltip in
  setIcon iconFilename tabId
    ++ badge
    ++ [throttledSetTitle tooltip tabId]
    ++ optional (setTitle composeAction tooltip None).

(** [export function setDefaultToolbarIcon]. *)
Definition defaultIconFilename (toolbarIcon : ToolbarIcon) : string :=
  match toolbarIcon with
  | sky => "10ten-disabled"
  | default => "10ten-sky-disabled"
  end.

Definition setDefaultToolbarIcon (toolbarIcon : ToolbarIcon) : list Instr :=
  setIcon (defaultIconFilename toolbarIcon) None.

End Derivation.

(* ================================================================== *)
(** ** The update loop: [updateBrowserAction] *)
(* ================================================================== *)

(** The scheduling is single-threaded and cooperative: code runs until it
    awaits a host call, and is resumed when the host settles the call.  The
    machine below has one transition per thing that can happen between two
    suspensions: a caller submits a snapshot, or the host resolves or
    rejects the call a loop is waiting for.  A resumption that waits for
    no host call (the [await] of an optional call on an absent surface,
    the return of an [async] function to its caller) is part of the
    transition of the host call before it: the code in between touches
    [currentUpdate] only where the loop reads [next], after the last of
    them. *)

(** A suspended run of the [async] arrow function of lines 40-55: the
    snapshot it is rendering, the host call it awaits and what is left of
    [doUpdateBrowserAction] after it. *)
Record Task : Type := {
  rendering : BrowserActionState;
  awaiting : HostCall;
  continuation : list Instr
}.

(** What the host and the rate limiter have seen, oldest first. *)
Inductive LogEntry : Type :=
  | CycleStarted (params : BrowserActionState)
  | HostCalled (call : HostCall)
  | TitleRequested (title : Message) (tab : option Z)
  | CycleEnded (params : BrowserActionState) (ok : bool).

(** [currentUpdate] is [undefined] ([None]) or an object whose [next] is
    unset ([Some None]) or a snapshot ([Some (Some params)]).  [tasks] are
    the loops that are suspended. *)
Record Coalescer : Type := {
  currentUpdate : option (option BrowserActionState);
  tasks : list Task;
  log : list LogEntry
}.

Definition initial : Coalescer :=
  {| currentUpdate := None; tasks := []; log := [] |}.

Inductive Event : Type :=
  | Submit (params : BrowserActionState)  (* updateBrowserAction(params) *)
  | Resolved (task : nat)                 (* the awaited call succeeded *)
  | Rejected (task : nat).                (* the awaited call failed *)

(** Runs a function body up to its next [await]: what it logs on the way,
    and the call it then waits for with the rest of the body ([None] when
    the body has run to its end). *)
Fixpoint resume (body : list Instr)
  : list LogEntry * option (HostCall * list Instr) :=
  match body with
  | [] => ([], None)
  | throttledSetTitle title tab :: rest =>
      let '(entries, suspended) := resume rest in
      (TitleRequested title tab :: entries, suspended)
  | await call :: rest => ([HostCalled call], Some (call, rest))
  end.

Definition option_list {A : Type} (o : option A) : list A :=
  match o with Some a => [a] | None => [] end.

Section Loop.

Variable env : Environment.

(** One pass of [while (nextParams)] from its top to the first
    suspension: [currentUpdate = {}], then the call of
    [doUpdateBrowserAction].  The result is the new [currentUpdate], the
    loop if it is suspended, and the log. *)
Definition iteration (nextParams : BrowserActionState)
  (log : list LogEntry)
  : option (option BrowserActionState) * option Task * list LogEntry :=
  let '(entries, suspended) := resume (doUpdateBrowserAction env nextParams) in
  match suspended with
  | Some (call, rest) =>
      (Some None,
       Some {| rendering := nextParams; awaiting := call;
               continuation := rest |},
       log ++ CycleStarted nextParams :: entries)
  | None =>
      (* The body ran to its end without suspending: [currentUpdate?.next]
         is the [next] of the object just created, the loop ends and
         [currentUpdate = undefined]. *)
      (None, None,
       log ++ CycleStarted nextParams :: entries
           ++ [CycleEnded nextParams true])
  end.

(** The loop after the [try] statement, whether the body returned
    ([ok = true]) or threw and the [catch] swallowed it ([ok = false]):
    [nextParams = currentUpdate?.next], then the next pass or
    [currentUpdate = undefined]. *)
Definition afterTry (params : BrowserActionState) (ok : bool)
  (currentUpdate : option (option BrowserActionState))
  (log : list LogEntry)
  : option (option BrowserActionState) * option Task * list LogEntry :=
  let log := log ++ [CycleEnded params ok] in
  let nextParams :=
    match currentUpdate with Some update => update | None => None end in
  match nextParams with
  | Some nextParams => iteration nextParams log
  | None => (None, None, log)
  end.

(** The suspended loops after loop number [i] has moved on. *)
Definition replaceTask (i : nat) (t : option Task) (ts : list Task)
  : list Task :=
  firstn i ts ++ option_list t ++ skipn (S i) ts.

Definition step (st : Coalescer) (e : Event) : Coalescer :=
  match e with
  | Submit params =>
      match currentUpdate st with
      | Some _ =>
          (* currentUpdate.next = params; return *)
          {| currentUpdate := Some (Some params);
             tasks := tasks st; log := log st |}
      | None =>
          let '(update, t, lg) := iteration params (log st) in
          {| currentUpdate := update;
             tasks := tasks st ++ option_list t; log := lg |}
      end
  | Resolved i =>
      match nth_error (tasks st) i with
      | None => st
      | Some t =>
          let '(entries, suspended) := resume (continuation t) in
          let '(update, t', lg) :=
            match suspended with
            | Some (call, rest) =>
                (currentUpdate st,
                 Some {| rendering := rendering t; awaiting := call;
                         continuation := rest |},
                 log st ++ entries)
            | None =>
                afterTry (rendering t) true (currentUpdate st)
                  (log st ++ entries)
            end in
          {| currentUpdate := update;
             tasks := replaceTask i t' (tasks st); log := lg |}
      end
  | Rejected i =>
      match nth_error (tasks st) i with
      | None => st
      | Some t =>
          let '(update, t', lg) :=
            afterTry (rendering t) false (currentUpdate st) (log st) in
          {| currentUpdate := update;
             tasks := replaceTask i t' (tasks st); log := lg |}
      end
  end.

Definition run (st : Coalescer) (events : list Event) : Coalescer :=
  fold_left step events st.

Definition reachable (st : Coalescer) : Prop :=
  exists events, st = run initial events.

End Loop.

(** Observations of a log. *)
Definition isCycleEnded (e : LogEntry) : bool :=
  match e with CycleEnded _ _ => true | _ => false end.

(** The snapshots for which a cycle was started, oldest first. *)
Fixpoint cyclesStarted (l : list LogEntry) : list BrowserActionState :=
  match l with
  | [] => []
  | CycleStarted params :: l => params :: cyclesStarted l
  | _ :: l => cyclesStarted l
  end.

Definition cyclesEnded (l : list LogEntry) : nat :=
  length (filter isCycleEnded l).

(** The cycles that have started and not ended. *)
Definition inFlight (l : list LogEntry) : Z :=
  Z.of_nat (length (cyclesStarted l)) - Z.of_nat (cyclesEnded l).

(** The snapshots of the [Submit] events of a list, oldest first. *)
Fixpoint submitted (events : list Event) : list BrowserActionState :=
  match events with
  | [] => []
  | Submit params :: events => params :: submitted events
  | _ :: events => submitted events
  end.

Section Phases.

Variable env : Environment.

(** The state of the loop between two events: idle, with no loop
    suspended and [currentUpdate] undefined, or running, with exactly one
    loop suspended and [currentUpdate] an object. *)
Inductive Phase (st : Coalescer) : Prop :=
  | Idle :
      currentUpdate st = None -> tasks st = [] -> inFlight (log st) = 0 ->
      Phase st
  | Running (next : option BrowserActionState) (t : Task) :
      currentUpdate st = Some next -> tasks st = [t] ->
      inFlight (log st) = 1 ->
      Phase st.

(** What a settled call does to a running loop: [entries] are logged,
    then the loop is suspended again ([Some]) or the cycle has ended. *)
Definition settled (st : Coalescer) (t : Task) (ok : bool)
  (entries : list LogEntry) (suspended : option (HostCall * list Instr))
  : Coalescer :=
  match suspended with
  | Some (call, rest) =>
      {| currentUpdate := currentUpdate st;
         tasks := [{| rendering := rendering t; awaiting := call;
                      continuation := rest |}];
         log := log st ++ entries |}
  | None =>
      let '(update, t', lg) :=
        afterTry env (rendering t) ok (currentUpdate st)
          (log st ++ entries) in
      {| currentUpdate := update; tasks := option_list t'; log := lg |}
  end.

(** The pending snapshot after the submissions among [events], when no
    cycle ends in between. *)
Definition pendingAfter (next : option BrowserActionState)
  (events : list Event) : option BrowserActionState :=
  last (map Some (submitted events)) next.

End Phases.

(** The last element of a list, if it has one. *)
Definition lastOf {A : Type} (l : list A) : option A :=
  last (map Some l) None.

(** Observations of a function body. *)
Fixpoint hostCalls (body : list Instr) : list HostCall :=
  match body with
  | [] => []
  | await call :: rest => call :: hostCalls rest
  | throttledSetTitle _ _ :: rest => hostCalls rest
  end.

Fixpoint titleRequests (body : list Instr) : list (Message * option Z) :=
  match body with
  | [] => []
  | await _ :: rest => titleRequests rest
  | throttledSetTitle title tab :: rest => (title, tab) :: titleRequests rest
  end.

Definition isSetTitle (call : HostCall) : bool :=
  match call with setTitle _ _ _ => true | _ => false end.

Definition surfaceOf (call : HostCall) : Surface :=
  match call with
  | setIcon_ on _ _ | setBadgeText on _ _
  | setBadgeBackgroundColor on _ _ | setTitle on _ _ => on
  end.

(** The badge texts and colours set, each with its surface. *)
Fixpoint badgeTexts (calls : list HostCall) : list (Surface * string) :=
  match calls with
  | [] => []
  | setBadgeText on text _ :: calls => (on, text) :: badgeTexts calls
  | _ :: calls => badgeTexts calls
  end.

Fixpoint badgeColors (calls : list HostCall) : list (Surface * string) :=
  match calls with
  | [] => []
  | setBadgeBackgroundColor on color _ :: calls =>
      (on, color) :: badgeColors calls
  | _ :: calls => badgeColors calls
  end.

(** What the host and the rate limiter see of an instruction. *)
Definition entryOf (i : Instr) : LogEntry :=
  match i with
  | await call => HostCalled call
  | throttledSetTitle title tab => TitleRequested title tab
  end.

(** What they see of a stretch of a function body that runs through. *)
Definition trace (body : list Instr) : list LogEntry := map entryOf body.

(** A log made of whole cycles, one after the other.  A cycle that ended
    well shows the whole of [doUpdateBrowserAction] for its snapshot; a
    cycle that failed shows it up to the call that was rejected, and
    nothing of what comes after that call. *)
Inductive CycleLog (env : Environment) : list LogEntry -> Prop :=
  | NoCycle : CycleLog env []
  | Completed (l : list LogEntry) (params : BrowserActionState) :
      CycleLog env l ->
      CycleLog env
        (l ++ CycleStarted params
              :: trace (doUpdateBrowserAction env params)
              ++ [CycleEnded params true])
  | Failed (l : list LogEntry) (params : BrowserActionState)
      (before : list Instr) (call : HostCall) (after : list Instr) :
      CycleLog env l ->
      doUpdateBrowserAction env params = before ++ await call :: after ->
      CycleLog env
        (l ++ CycleStarted params
              :: trace (before ++ [await call])
              ++ [CycleEnded params false]).

(** The log of a state agrees with its suspended loop: whole cycles, then
    the running cycle up to the call it awaits, the rest of its body being
    the continuation. *)
Definition Consistent (env : Environment) (st : Coalescer) : Prop :=
  match tasks st with
  | [] => CycleLog env (log st)
  | [t] =>
      exists l before,
        CycleLog env l
        /\ doUpdateBrowserAction env (rendering t)
           = before ++ await (awaiting t) :: continuation t
        /\ log st
           = l ++ CycleStarted (rendering t)
                 :: trace (before ++ [await (awaiting t)])
  | _ => False
  end.

(** [l1] is [l2] with some elements left out. *)
Inductive Subsequence {A : Type} : list A -> list A -> Prop :=
  | sub_nil : Subsequence [] []
  | sub_skip (x : A) (l1 l2 : list A) :
      Subsequence l1 l2 -> Subsequence l1 (x :: l2)
  | sub_take (x : A) (l1 l2 : list A) :
      Subsequence l1 l2 -> Subsequence (x :: l1) (x :: l2).

(** The pending snapshot of a state, as a list. *)
Definition pendingOf (st : Coalescer) : list BrowserActionState :=
  match currentUpdate st with
  | Some (Some params) => [params]
  | _ => []
  end.

(** The host calls a state still has to see settled before the loop is
    idle, if nothing more is submitted and every call resolves: the one
    awaited, those of the continuation, and those of the pending
    snapshot's cycle. *)
Definition callsLeft (env : Environment) (st : Coalescer) : nat :=
  match tasks st with
  | [] => 0
  | t :: _ =>
      1 + length (hostCalls (continuation t))
      + length (flat_map (fun params =>
                            hostCalls (doUpdateBrowserAction env params))
                  (pendingOf st))
  end.

(** An event by which the host settles the call of the one loop. *)
Definition settles (e : Event) : Prop := e = Resolved 0 \/ e = Rejected 0.

(** The surfaces the host has in an environment. *)
Definition surfaces (env : Environment) : list Surface :=
  browserAction :: (if hasComposeAction env then [composeAction] else []).

(** The progress parts the overlay appends for an update state. *)
Definition progressParts (env : Environment) (u : UpdateState) : list string :=
  match u with
  | idle => []
  | checking series => ["0p"; seriesColors series]
  | updating series totalProgress =>
      [(Number_toString env (JS.Math_round (totalProgress * 5) * 20)%float
        ++ "p")%string;
       seriesColors series]
  end.

(** The tooltip of an update state, [base] when nothing is in progress. *)
Definition progressTooltip (env : Environment) (u : UpdateState)
  (base : Message) : Message :=
  match u with
  | idle => base
  | checking _ => getMessage "command_toggle_checking" []
  | updating series totalProgress =>
      getMessage "command_toggle_downloading"
        [getLocalizedDataSeriesLabel env series;
         Number_toString env (JS.Math_round (totalProgress * 100)%float)]
  end.

(** The parts the overlay appends: the progress parts, except that the
    [updating] overlay appends nothing to an error icon. *)
Definition overlayParts (env : Environment) (error : bool) (u : UpdateState)
  : list string :=
  match u with
  | updating _ _ => if error then [] else progressParts env u
  | _ => progressParts env u
  end.

(** The part the base step appends, and its tooltip. *)
Definition basePart (enabled : bool) (j : JpdictStateWithFallback)
  : list string :=
  fst (chooseBase enabled j []).

Definition baseTooltip (enabled : bool) (j : JpdictStateWithFallback)
  : Message :=
  snd (chooseBase enabled j []).

(** The parts after the base step (lines 64-97). *)
Definition baseParts (params : BrowserActionState) : list string :=
  fst (chooseBase (enabled params) (jpdictState params)
         (applyVariant (toolbarIcon params))).

(** The base step selected the error icon. *)
Definition selectsError (params : BrowserActionState) : bool :=
  JS.includes (baseParts params) "error".

(** The condition of step 5 of the specification, in words: a tracked
    series is not ['ok'], and there is an error which is neither an abort
    nor an exceeded quota. *)
Definition updateErrorShown (env : Environment) (j : JpdictStateWithFallback)
  : Prop :=
  (exists series, In series (allMajorDataSeries env) /\ state j series <> "ok")
  /\ (exists e, updateError j = Some e
                /\ name e <> "AbortError" /\ name e <> "QuotaExceededError").

(** [x] stands before [y] in [l]. *)
Definition precedes (x y : string) (l : list string) : Prop :=
  exists l1 l2 l3, l = l1 ++ x :: l2 ++ y :: l3.

(** The tab a host call is scoped to. *)
Definition tabOf (call : HostCall) : option Z :=
  match call with
  | setIcon_ _ _ tab | setBadgeText _ _ tab
  | setBadgeBackgroundColor _ _ tab | setTitle _ _ tab => tab
  end.

(** What a call makes a surface show, whatever the surface and the tab. *)
Inductive Visual : Type :=
  | shownIcon (path : IconPath)
  | shownBadgeText (text : string)
  | shownBadgeColor (color : string)
  | shownTitle (title : Message).

Definition visualOf (call : HostCall) : Visual :=
  match call with
  | setIcon_ _ path _ => shownIcon path
  | setBadgeText _ text _ => shownBadgeText text
  | setBadgeBackgroundColor _ color _ => shownBadgeColor color
  | setTitle _ title _ => shownTitle title
  end.

Definition Surface_eqb (a b : Surface) : bool :=
  match a, b with
  | browserAction, browserAction | composeAction, composeAction => true
  | _, _ => false
  end.

(** What a body asks one surface to show, in order; the title handed to
    the rate limiter is a title of the toolbar button. *)
Fixpoint shownOn (on : Surface) (body : list Instr) : list Visual :=
  match body with
  | [] => []
  | await call :: rest =>
      if Surface_eqb (surfaceOf call) on then visualOf call :: shownOn on rest
      else shownOn on rest
  | throttledSetTitle title _ :: rest =>
      if Surface_eqb browserAction on then shownTitle title :: shownOn on rest
      else shownOn on rest
  end.

(** What the icon and the tooltip before the error overlay are derived
    from: two snapshots agree on it. *)
Definition sameIconInputs (a b : BrowserActionState) : Prop :=
  enabled a = enabled b
  /\ toolbarIcon a = toolbarIcon b
  /\ words_state (jpdictState a) = words_state (jpdictState b)
  /\ words_fallbackState (jpdictState a) = words_fallbackState (jpdictState b)
  /\ updateState (jpdictState a) = updateState (jpdictState b).

(** The words database and its fallback are both out of use: neither is
    ['ok'], the database is not initializing, and the fallback is neither
    loading nor still to be loaded. *)
Definition wordsUnusable (j : JpdictStateWithFallback) : Prop :=
  words_state j <> "ok" /\ words_fallbackState j <> "ok"
  /\ words_state j <> "init" /\ words_fallbackState j <> "loading"
  /\ words_fallbackState j <> "unloaded".

(** What the badge is derived from: two snapshots agree on the state of
    every tracked series and on the update error. *)
Definition sameBadgeInputs (env : Environment) (a b : BrowserActionState)
  : Prop :=
  (forall series, In series (allMajorDataSeries env) ->
      state (jpdictState a) series = state (jpdictState b) series)
  /\ updateError (jpdictState a) = updateError (jpdictState b).

(* ================================================================== *)
(** ** The rate limiter: [throttle] *)
(* ================================================================== *)

Module RateLimiter.

Section Throttle.

(** The arguments of the wrapped effect. *)
Variable Args : Type.
Variable minIntervalMs : Z.

(** Modelled from the spec: [throttle] is defined in
    [../utils/throttle], which is not among the sources.  Section 4.1
    of the specification describes it by the time of the last actual
    execution of the effect and the one pending invocation whose
    timer is armed; [applied] records the executions of the effect,
    oldest first, each with its time in milliseconds. *)
Record Limiter : Type := {
  lastRun : option Z;
  pending : option Args;
  applied : list (Z * Args)
}.

(** Modelled from the spec: before the first call nothing has run and no
    timer is armed. *)
Definition fresh : Limiter :=
  {| lastRun := None; pending := None; applied := [] |}.

(** Modelled from the spec: the timer is armed while an invocation is
    pending, to fire exactly [minIntervalMs] after the last actual
    execution. *)
Definition timer (l : Limiter) : option Z :=
  match lastRun l, pending l with
  | Some t, Some _ => Some (t + minIntervalMs)
  | _, _ => None
  end.

(** Modelled from the spec: an actual execution of the effect, at time
    [now]. *)
Definition execute (now : Z) (args : Args) (l : Limiter) : Limiter :=
  {| lastRun := Some now; pending := None;
     applied := applied l ++ [(now, args)] |}.

(** Modelled from the spec: when the timer fires, the effect runs with
    the most recently supplied arguments. *)
Definition fire (l : Limiter) : Limiter :=
  match timer l, pending l with
  | Some t, Some args => execute t args l
  | _, _ => l
  end.

(** Modelled from the spec: time passes up to [now], and a timer that
    is due has fired at its time. *)
Definition elapse (now : Z) (l : Limiter) : Limiter :=
  match timer l with
  | Some t => if t <=? now then fire l else l
  | None => l
  end.

(** Modelled from the spec: a call of the wrapper at time [now].  With
    no execution within the last [minIntervalMs] the effect runs at
    once; otherwise the call replaces the pending invocation. *)
Definition call (now : Z) (args : Args) (l : Limiter) : Limiter :=
  let l := elapse now l in
  match lastRun l with
  | Some t =>
      if now - t <? minIntervalMs then
        {| lastRun := lastRun l; pending := Some args;
           applied := applied l |}
      else execute now args l
  | None => execute now args l
  end.

(** Modelled from the spec: a series of calls, each with its time. *)
Definition calls (requests : list (Z * Args)) (l : Limiter) : Limiter :=
  fold_left (fun l r => call (fst r) (snd r) l) requests l.

(** Modelled from the spec: the calls, then the timer left armed runs
    out. *)
Definition settle (requests : list (Z * Args)) (l : Limiter) : Limiter :=
  fire (calls requests l).

End Throttle.

Arguments lastRun {Args} _.
Arguments pending {Args} _.
Arguments applied {Args} _.
Arguments fresh {Args}.
Arguments timer {Args} _ _.
Arguments execute {Args} _ _ _.
Arguments fire {Args} _ _.
Arguments elapse {Args} _ _ _.
Arguments call {Args} _ _ _ _.
Arguments calls {Args} _ _ _.
Arguments settle {Args} _ _ _.

End RateLimiter.

(** Line 19-24: [throttledSetTitle] is [setTitle] of the toolbar button
    behind a limiter of 2500 ms. *)
Definition throttledSetTitle_interval : Z := 2500.

(* ================================================================== *)
(** ** Environments and snapshots used in the examples *)
(* ================================================================== *)

(** A browser with SVG icons and no compose window (Firefox, Chrome). *)
Definition browserEnv : Environment := {|
  allMajorDataSeries := [words; kanji; names];
  getLocalizedDataSeriesLabel := fun series =>
    match series with
    | words => "words" | names => "names"
    | kanji => "kanji" | radicals => "radicals"
    end;
  SUPPORTS_SVG_ICONS := true;
  hasComposeAction := false;
  Number_toString := JS.Number_toString
|}.

(** A mail client: the compose window has an action of its own. *)
Definition mailEnv : Environment := {|
  allMajorDataSeries := allMajorDataSeries browserEnv;
  getLocalizedDataSeriesLabel := getLocalizedDataSeriesLabel browserEnv;
  SUPPORTS_SVG_ICONS := true;
  hasComposeAction := true;
  Number_toString := JS.Number_toString
|}.

(** Every series loaded, nothing in progress, no error. *)
Definition allOk : JpdictStateWithFallback := {|
  words_state := "ok"; words_fallbackState := "unloaded";
  names_state := "ok"; kanji_state := "ok"; radicals_state := "ok";
  updateState := idle; updateError := None
|}.

(** Neither the words database nor its fallback could be loaded. *)
Definition wordsFailed : JpdictStateWithFallback := {|
  words_state := "error"; words_fallbackState := "error";
  names_state := "ok"; kanji_state := "ok"; radicals_state := "ok";
  updateState := idle; updateError := None
|}.

Definition withUpdateState (u : UpdateState) (j : JpdictStateWithFallback)
  : JpdictStateWithFallback :=
  {| words_state := words_state j;
     words_fallbackState := words_fallbackState j;
     names_state := names_state j; kanji_state := kanji_state j;
     radicals_state := radicals_state j;
     updateState := u; updateError := updateError j |}.

Definition withUpdateError (e : option UpdateError)
  (j : JpdictStateWithFallback) : JpdictStateWithFallback :=
  {| words_state := words_state j;
     words_fallbackState := words_fallbackState j;
     names_state := names_state j; kanji_state := kanji_state j;
     radicals_state := radicals_state j;
     updateState := updateState j; updateError := e |}.

Definition snapshot (enabled : bool) (j : JpdictStateWithFallback)
  (toolbarIcon : ToolbarIcon) : BrowserActionState :=
  {| enabled := enabled; jpdictState := j; tabId := Some 7;
     toolbarIcon := toolbarIcon |}.

Definition withToolbarIcon (t : ToolbarIcon) (params : BrowserActionState)
  : BrowserActionState :=
  {| enabled := enabled params; jpdictState := jpdictState params;
     tabId := tabId params; toolbarIcon := t |}.

(* ================================================================== *)
(** * Properties of the derivation *)
(* ================================================================== *)

Section DerivationFacts.

Variable env : Environment.

Lemma hostCalls_app (a b : list Instr) :
  hostCalls (a ++ b) = hostCalls a ++ hostCalls b.
Proof.
  induction a as [|[c|t i] a IH]; simpl; auto. now rewrite IH.
Qed.

Lemma titleRequests_app (a b : list Instr) :
  titleRequests (a ++ b) = titleRequests a ++ titleRequests b.
Proof.
  induction a as [|[c|t i] a IH]; simpl; auto. now rewrite IH.
Qed.

Lemma titleRequests_optional (c : HostCall) :
  titleRequests (optional env c) = [].
Proof. unfold optional. now destruct (hasComposeAction env). Qed.

Lemma titleRequests_setIcon (f : string) (tab : option Z) :
  titleRequests (setIcon env f tab) = [].
Proof.
  unfold setIcon. rewrite titleRequests_app, titleRequests_optional.
  reflexivity.
Qed.

Lemma titleRequests_badge (j : JpdictStateWithFallback) (tab : option Z)
  (tooltip : Message) :
  titleRequests (fst (overlayUpdateError env j tab tooltip)) = [].
Proof.
  unfold overlayUpdateError.
  destruct (showUpdateError env j); simpl;
    repeat (rewrite ?titleRequests_app, ?titleRequests_optional; simpl);
    reflexivity.
Qed.

(** A cycle hands exactly one title to the rate limiter: its tooltip. *)
Lemma titleRequests_doUpdateBrowserAction (params : BrowserActionState) :
  titleRequests (doUpdateBrowserAction env params)
  = [(tooltipOf env params, tabId params)].
Proof.
  unfold doUpdateBrowserAction, tooltipOf.
  destruct (deriveIcon env params) as [parts tooltip]; cbn [fst snd].
  pose proof (titleRequests_badge (jpdictState params) (tabId params) tooltip)
    as Hb.
  destruct (overlayUpdateError env (jpdictState params) (tabId params) tooltip)
    as [badge tooltip']; cbn [fst snd] in *.
  rewrite !titleRequests_app, titleRequests_setIcon, Hb.
  cbn [titleRequests app]. now rewrite titleRequests_optional.
Qed.

Lemma tooltipOf_eq (params : BrowserActionState) :
  tooltipOf env params
  = if showUpdateError env (jpdictState params) then
      getMessage "command_toggle_update_error" []
    else snd (deriveIcon env params).
Proof.
  unfold tooltipOf, overlayUpdateError.
  now destruct (showUpdateError env (jpdictState params)).
Qed.

(** The variant parts never hold the error part. *)
Lemma applyVariant_no_error (t : ToolbarIcon) (suffix : list string) :
  JS.includes (applyVariant t ++ suffix) "error" = JS.includes suffix "error".
Proof. now destruct t. Qed.

(** The base step appends to the parts it is given, and its tooltip does
    not depend on them. *)
Lemma chooseBase_eq (en : bool) (j : JpdictStateWithFallback)
  (parts : list string) :
  chooseBase en j parts = (parts ++ basePart en j, baseTooltip en j).
Proof.
  unfold basePart, baseTooltip, chooseBase, JS.push.
  destruct en; [|reflexivity].
  destruct (_ || _); [|destruct (_ || _); [|destruct (_ =? _)%string]];
    cbn [fst snd app]; now rewrite ?app_nil_r.
Qed.

Lemma baseParts_eq (params : BrowserActionState) :
  baseParts params
  = applyVariant (toolbarIcon params)
      ++ basePart (enabled params) (jpdictState params).
Proof. unfold baseParts. now rewrite chooseBase_eq. Qed.

Lemma selectsError_eq (params : BrowserActionState) :
  selectsError params
  = JS.includes (basePart (enabled params) (jpdictState params)) "error".
Proof.
  unfold selectsError. now rewrite baseParts_eq, applyVariant_no_error.
Qed.

(** The overlay of the update state on any base. *)
Lemma overlay_eq (j : JpdictStateWithFallback) (parts : list string)
  (tooltip : Message) :
  overlayUpdateState env j (parts, tooltip)
  = (parts ++ overlayParts env (JS.includes parts "error") (updateState j),
     progressTooltip env (updateState j) tooltip).
Proof.
  unfold overlayUpdateState, overlayParts, progressParts, progressTooltip.
  destruct (updateState j) as [|series|series t]; unfold JS.push.
  - now rewrite app_nil_r.
  - reflexivity.
  - destruct (JS.includes parts "error"); cbn [negb];
      now rewrite ?app_nil_r.
Qed.

(** Lines 64-136 in one equation: stem and variant, base part, overlay
    parts; and the tooltip before the error overlay. *)
Lemma deriveIcon_eq (params : BrowserActionState) :
  deriveIcon env params
  = (applyVariant (toolbarIcon params)
       ++ basePart (enabled params) (jpdictState params)
       ++ overlayParts env (selectsError params)
            (updateState (jpdictState params)),
     progressTooltip env (updateState (jpdictState params))
       (baseTooltip (enabled params) (jpdictState params))).
Proof.
  unfold deriveIcon.
  rewrite chooseBase_eq, overlay_eq, <- baseParts_eq.
  fold (selectsError params). now rewrite baseParts_eq, <- app_assoc.
Qed.

Lemma showUpdateError_spec (j : JpdictStateWithFallback) :
  showUpdateError env j = true <-> updateErrorShown env j.
Proof.
  unfold showUpdateError, hasNotOkDatabase, JS.some, updateErrorShown.
  rewrite andb_true_iff, existsb_exists. split.
  - intros [(series & Hin & Hne) He]. split.
    + exists series. split; [exact Hin|].
      apply negb_true_iff, String.eqb_neq in Hne. exact Hne.
    + destruct (updateError j) as [e|]; [|discriminate].
      exists e. apply andb_true_iff in He as [Ha Hq].
      apply negb_true_iff, String.eqb_neq in Ha, Hq. auto.
  - intros [(series & Hin & Hne) (e & He & Ha & Hq)]. split.
    + exists series. split; [exact Hin|].
      now apply negb_true_iff, String.eqb_neq.
    + rewrite He. apply andb_true_iff.
      split; now apply negb_true_iff, String.eqb_neq.
Qed.

Lemma badgeTexts_app (a b : list HostCall) :
  badgeTexts (a ++ b) = badgeTexts a ++ badgeTexts b.
Proof.
  induction a as [|[] a IH]; cbn [badgeTexts app]; auto. now rewrite IH.
Qed.

Lemma badgeColors_app (a b : list HostCall) :
  badgeColors (a ++ b) = badgeColors a ++ badgeColors b.
Proof.
  induction a as [|[] a IH]; cbn [badgeColors app]; auto. now rewrite IH.
Qed.

(** The host calls of a cycle, in order. *)
Lemma hostCalls_doUpdateBrowserAction (params : BrowserActionState) :
  hostCalls (doUpdateBrowserAction env params)
  = hostCalls (setIcon env (iconFilename env params) (tabId params))
      ++ hostCalls (fst (overlayUpdateError env (jpdictState params)
                           (tabId params) (snd (deriveIcon env params))))
      ++ hostCalls (optional env
                      (setTitle composeAction (tooltipOf env params) None)).
Proof.
  unfold doUpdateBrowserAction, tooltipOf, iconFilename, iconFilenameParts.
  destruct (deriveIcon env params) as [parts tooltip]; cbn [fst snd].
  destruct (overlayUpdateError env (jpdictState params) (tabId params) tooltip)
    as [badge tooltip']; cbn [fst snd].
  now rewrite !hostCalls_app.
Qed.

(** The tooltip before the error overlay is never the update-error
    message. *)
Lemma deriveIcon_not_update_error (params : BrowserActionState) :
  messageName (snd (deriveIcon env params)) <> "command_toggle_update_error".
Proof.
  rewrite deriveIcon_eq. cbn [snd].
  unfold progressTooltip, baseTooltip, chooseBase.
  destruct (updateState (jpdictState params)); try (cbn; discriminate).
  destruct (enabled params); [|cbn; discriminate].
  destruct (_ || _); [|destruct (_ || _); [|destruct (_ =? _)%string]];
    cbn; discriminate.
Qed.

(** C2 (as amended).  For every snapshot with [enabled = false] the icon
    keeps the disabled base whatever the update state is: its parts are
    the variant parts, then ["disabled"], then the progress parts.  The
    tooltip is the disabled message only while nothing is in progress
    and no update error is shown: the checking and the downloading
    message replace it, and the update-error message replaces those. *)
Theorem disabled_base_and_tooltip (params : BrowserActionState) :
  enabled params = false ->
  let u := updateState (jpdictState params) in
  iconFilenameParts env params
  = applyVariant (toolbarIcon params) ++ "disabled" :: progressParts env u
  /\ tooltipOf env params
     = (if showUpdateError env (jpdictState params) then
          getMessage "command_toggle_update_error" []
        else
          progressTooltip env u (getMessage "command_toggle_disabled" []))
  /\ (u = idle -> showUpdateError env (jpdictState params) = false ->
      tooltipOf env params = getMessage "command_toggle_disabled" []).
Proof.
  intros Hen u.
  assert (Hd : deriveIcon env params
               = (applyVariant (toolbarIcon params)
                    ++ "disabled" :: progressParts env u,
                  progressTooltip env u
                    (getMessage "command_toggle_disabled" []))).
  { rewrite deriveIcon_eq, selectsError_eq, Hen. cbn.
    subst u. now destruct (updateState (jpdictState params)). }
  unfold iconFilenameParts. rewrite tooltipOf_eq, Hd. cbn [fst snd].
  repeat split. intros Hu He. now rewrite He, Hu.
Qed.

(** C3.  The badge shows ["!"] on the warning colour, and the tooltip is
    the update-error message, exactly when a tracked series is not
    ['ok'] and there is an update error that is neither an [AbortError]
    nor a [QuotaExceededError]; otherwise the badge text is set to the
    empty string, no badge colour is set, and the tooltip stays the one
    derived before, which is never the update-error message. *)
Theorem badge_iff_update_error (params : BrowserActionState) :
  let body := doUpdateBrowserAction env params in
  let shown := updateErrorShown env (jpdictState params) in
  (shown <-> In (browserAction, "!") (badgeTexts (hostCalls body)))
  /\ (shown ->
      badgeTexts (hostCalls body) = map (fun on => (on, "!")) (surfaces env)
      /\ badgeColors (hostCalls body)
         = map (fun on => (on, "yellow")) (surfaces env)
      /\ titleRequests body
         = [(getMessage "command_toggle_update_error" [], tabId params)])
  /\ (~ shown ->
      badgeTexts (hostCalls body) = map (fun on => (on, "")) (surfaces env)
      /\ badgeColors (hostCalls body) = []
      /\ titleRequests body = [(snd (deriveIcon env params), tabId params)]
      /\ messageName (snd (deriveIcon env params))
         <> "command_toggle_update_error").
Proof.
  intros body shown. subst body shown.
  rewrite titleRequests_doUpdateBrowserAction, tooltipOf_eq,
    hostCalls_doUpdateBrowserAction.
  rewrite <- showUpdateError_spec.
  rewrite !badgeTexts_app, !badgeColors_app.
  unfold overlayUpdateError, setIcon, optional, surfaces.
  destruct (showUpdateError env (jpdictState params));
    destruct (hasComposeAction env); cbn;
    (split; [split; intros H | split; intros H]);
    try discriminate H; try (now elim H);
    repeat match goal with
           | H : _ \/ _ |- _ => destruct H
           | H : (_, _) = (_, _) |- _ => discriminate H
           | H : False |- _ => elim H
           end;
    repeat split; auto using deriveIcon_not_update_error.
Qed.

(** C5.  For every snapshot in the [updating] variant, whatever the
    progress, the file name parts are the base parts followed by the
    overlay: where the base step did not select the error icon (the
    condition of the overlay step), two parts, the bucket
    [round(totalProgress * 5) * 20] followed by ["p"] and the colour of
    the series in the fixed table; where it did, nothing, for every
    series.  With 0.43 for the words series the file name ends in
    [40p-green]; 0 and 1 give the first and the last of the buckets. *)
Theorem progress_bucket (params : BrowserActionState)
  (series : DataSeries) (totalProgress : JS.number) :
  updateState (jpdictState params) = updating series totalProgress ->
  iconFilenameParts env params
  = baseParts params
      ++ (if selectsError params then []
          else [(Number_toString env
                   (JS.Math_round (totalProgress * 5) * 20)%float
                   ++ "p")%string;
                seriesColors series])
  /\ map seriesColors [words; names; kanji; radicals]
     = ["green"; "blue"; "purple"; "purple"]
  /\ (selectsError params = false ->
      Number_toString env = JS.Number_toString ->
      series = words ->
      (totalProgress = 0.43%float ->
       iconFilename env params
       = JS.join (baseParts params ++ ["40p"; "green"]) "-")
      /\ (totalProgress = 0%float ->
          iconFilename env params
          = JS.join (baseParts params ++ ["0p"; "green"]) "-")
      /\ (totalProgress = 1%float ->
          iconFilename env params
          = JS.join (baseParts params ++ ["100p"; "green"]) "-")).
Proof.
  intros Hu.
  assert (Hparts : iconFilenameParts env params
                   = baseParts params
                       ++ (if selectsError params then []
                           else progressParts env
                                  (updating series totalProgress))).
  { unfold iconFilenameParts.
    rewrite deriveIcon_eq, baseParts_eq, Hu, <- app_assoc.
    reflexivity. }
  split; [exact Hparts | split; [reflexivity|]].
  intros He Hn Hs. unfold iconFilename. rewrite Hparts, He.
  unfold progressParts. rewrite Hn, Hs.
  repeat split; intros ->; reflexivity.
Qed.

(** C6 (as amended).  On the toolbar button ([browserAction]) a cycle
    never calls [setTitle] directly: its one title goes to the rate
    limiter, and nothing else does.  The icon and the badge text are set
    by direct calls.  Where the host has a compose action, its title is
    set by a direct call as well. *)
Theorem title_through_rate_limiter (params : BrowserActionState) :
  let body := doUpdateBrowserAction env params in
  titleRequests body = [(tooltipOf env params, tabId params)]
  /\ (forall call, In call (hostCalls body) ->
      surfaceOf call = browserAction -> isSetTitle call = false)
  /\ filter isSetTitle (hostCalls body)
     = (if hasComposeAction env then
          [setTitle composeAction (tooltipOf env params) None]
        else [])
  /\ In (setIcon_ browserAction (iconDetails env (iconFilename env params))
           (tabId params))
        (hostCalls body)
  /\ exists text,
      In (setBadgeText browserAction text (tabId params)) (hostCalls body).
Proof.
  intros body. subst body.
  rewrite titleRequests_doUpdateBrowserAction,
    hostCalls_doUpdateBrowserAction.
  unfold overlayUpdateError, setIcon, optional.
  split; [reflexivity|].
  destruct (showUpdateError env (jpdictState params));
    destruct (hasComposeAction env); cbn;
    (split; [intros call Hin Hs;
             repeat (destruct Hin as [<-|Hin]; [try reflexivity;
                                                try discriminate Hs|]);
             now elim Hin
            |]);
    (split; [reflexivity|]); (split; [now left|]);
    eexists; right; (left; reflexivity) || (right; left; reflexivity).
Qed.

(** C9 (as amended).  The style preference is a part of its own, placed
    directly after the stem ["10ten"] and so before the part the base
    step chooses and before the progress parts; it replaces none of
    them.  The parts for [sky] are the parts for [default] with ["sky"]
    inserted after the stem, and the tooltip does not depend on the
    style. *)
Theorem sky_follows_stem (params : BrowserActionState) :
  let rest :=
    basePart (enabled params) (jpdictState params)
      ++ overlayParts env (selectsError params)
           (updateState (jpdictState params)) in
  iconFilenameParts env (withToolbarIcon default params) = "10ten" :: rest
  /\ iconFilenameParts env (withToolbarIcon sky params)
     = "10ten" :: "sky" :: rest
  /\ tooltipOf env (withToolbarIcon sky params)
     = tooltipOf env (withToolbarIcon default params).
Proof.
  assert (Hsel : forall t, selectsError (withToolbarIcon t params)
                           = selectsError params).
  { intros t. now rewrite !selectsError_eq. }
  unfold iconFilenameParts. rewrite !tooltipOf_eq, !deriveIcon_eq, !Hsel.
  cbn [enabled jpdictState toolbarIcon withToolbarIcon fst snd].
  repeat split.
Qed.

(** C10.  [setDefaultToolbarIcon] sets the icon ["10ten-disabled"] for
    the [sky] style and ["10ten-sky-disabled"] for the [default] style,
    while a render cycle of a disabled snapshot with nothing in progress
    sets ["10ten-sky-disabled"] for [sky] and ["10ten-disabled"] for
    [default]: the two functions assign the style part the opposite
    way. *)
Theorem setDefaultToolbarIcon_swaps_style :
  defaultIconFilename sky = "10ten-disabled"
  /\ defaultIconFilename default = "10ten-sky-disabled"
  /\ (forall t,
       hostCalls (setDefaultToolbarIcon env t)
       = map (fun on => setIcon_ on (iconDetails env (defaultIconFilename t))
                          None)
           (surfaces env))
  /\ (forall params,
       enabled params = false ->
       updateState (jpdictState params) = idle ->
       iconFilename env (withToolbarIcon sky params)
       = defaultIconFilename default
       /\ iconFilename env (withToolbarIcon default params)
          = defaultIconFilename sky).
Proof.
  split; [reflexivity | split; [reflexivity | split]].
  - intros t. unfold setDefaultToolbarIcon, setIcon, optional, surfaces.
    now destruct (hasComposeAction env).
  - intros params Hen Hu.
    unfold iconFilename, iconFilenameParts. rewrite !deriveIcon_eq.
    cbn [enabled jpdictState toolbarIcon withToolbarIcon fst].
    rewrite Hen, Hu. split; reflexivity.
Qed.

Lemma basePart_error (en : bool) (j : JpdictStateWithFallback) :
  JS.includes (basePart en j) "error" = true -> basePart en j = ["error"].
Proof.
  unfold basePart, chooseBase, JS.push.
  destruct en; [|discriminate].
  destruct (_ || _); [|destruct (_ || _); [|destruct (_ =? _)%string]];
    cbn; try discriminate; reflexivity.
Qed.

(** X1.  The [updating] overlay leaves an error icon as it is: when the
    base step selected the error icon, a download in progress adds no part to
    the file name; the tooltip before the error overlay is the
    downloading message all the same. *)
Theorem updating_keeps_error_icon (params : BrowserActionState)
  (series : DataSeries) (totalProgress : JS.number) :
  selectsError params = true ->
  updateState (jpdictState params) = updating series totalProgress ->
  iconFilenameParts env params = applyVariant (toolbarIcon params) ++ ["error"]
  /\ snd (deriveIcon env params)
     = getMessage "command_toggle_downloading"
         [getLocalizedDataSeriesLabel env series;
          Number_toString env (JS.Math_round (totalProgress * 100)%float)].
Proof.
  intros He Hu. unfold iconFilenameParts. rewrite deriveIcon_eq, He, Hu.
  rewrite selectsError_eq in He. rewrite (basePart_error _ _ He).
  cbn [fst snd overlayParts progressTooltip]. now rewrite app_nil_r.
Qed.


(** No progress part is the error part: a part ending in ["p"] is not
    ["error"]. *)
Lemma progress_suffix_not_error (digits : string) :
  (digits ++ "p")%string <> "error".
Proof.
  destruct digits as [|c1 [|c2 [|c3 [|c4 [|c5 [|c6 rest]]]]]];
    cbn; intros H; congruence.
Qed.

Lemma overlayParts_no_error (error : bool) (u : UpdateState) :
  JS.includes (overlayParts env error u) "error" = false.
Proof.
  unfold JS.includes.
  destruct u as [|series|series t]; [reflexivity | now destruct series |].
  destruct error; [reflexivity|]. cbn [overlayParts progressParts existsb].
  rewrite orb_false_r.
  replace ("error" =? seriesColors series)%string with false
    by now destruct series.
  rewrite orb_false_r, String.eqb_sym. apply String.eqb_neq.
  apply progress_suffix_not_error.
Qed.

Lemma includes_app (a b : list string) (x : string) :
  JS.includes (a ++ b) x = JS.includes a x || JS.includes b x.
Proof. apply existsb_app. Qed.

Lemma includes_In (a : list string) (x : string) :
  JS.includes a x = true <-> In x a.
Proof.
  unfold JS.includes. rewrite existsb_exists. split.
  - intros (y & Hin & Heq). apply String.eqb_eq in Heq. now subst.
  - intros Hin. exists x. split; [exact Hin | apply String.eqb_refl].
Qed.

Lemma selectsError_iff (params : BrowserActionState) :
  selectsError params = true
  <-> enabled params = true /\ wordsUnusable (jpdictState params).
Proof.
  rewrite selectsError_eq. unfold basePart, chooseBase, wordsUnusable, JS.push.
  destruct (enabled params); [|split; [discriminate | now intros [H _]]].
  destruct (words_state (jpdictState params) =? "ok")%string eqn:E1;
    destruct (words_fallbackState (jpdictState params) =? "ok")%string eqn:E2;
    destruct (words_state (jpdictState params) =? "init")%string eqn:E3;
    destruct (words_fallbackState (jpdictState params) =? "loading")%string
      eqn:E4;
    destruct (words_fallbackState (jpdictState params) =? "unloaded")%string
      eqn:E5;
    cbn;
    rewrite ?String.eqb_eq, ?String.eqb_neq in *;
    (split; [try discriminate | intros (_ & H1 & H2 & H3 & H4 & H5)];
     try contradiction; auto 10).
Qed.

(** X4.  The error icon is shown exactly when the feature is enabled and
    the words database and its fallback are both out of use: the part
    ["error"] is in the icon file name in that case and in no other,
    whatever the update state, the style and the other series are. *)
Theorem error_icon_iff (params : BrowserActionState) :
  In "error" (iconFilenameParts env params)
  <-> enabled params = true /\ wordsUnusable (jpdictState params).
Proof.
  rewrite <- selectsError_iff, <- includes_In.
  unfold iconFilenameParts. rewrite deriveIcon_eq. cbn [fst].
  rewrite applyVariant_no_error, includes_app, overlayParts_no_error,
    orb_false_r, selectsError_eq.
  reflexivity.
Qed.

Lemma basePart_words (en : bool) (a b : JpdictStateWithFallback) :
  words_state a = words_state b ->
  words_fallbackState a = words_fallbackState b ->
  chooseBase en a [] = chooseBase en b [].
Proof. unfold chooseBase. now intros -> ->. Qed.

(** X5.  The icon and the tooltip before the error overlay depend on
    [enabled], the style, the state of the words series and of its
    fallback, and the update state, and on nothing else: not on the tab,
    not on the names, kanji and radicals series, not on [updateError]. *)
Theorem icon_depends_on_words_only (a b : BrowserActionState) :
  sameIconInputs a b ->
  iconFilename env a = iconFilename env b
  /\ iconDetails env (iconFilename env a) = iconDetails env (iconFilename env b)
  /\ snd (deriveIcon env a) = snd (deriveIcon env b).
Proof.
  intros (Hen & Hicon & Hw & Hf & Hu).
  assert (Hd : deriveIcon env a = deriveIcon env b).
  { rewrite !deriveIcon_eq, !selectsError_eq.
    unfold basePart, baseTooltip.
    rewrite Hen, Hicon, Hu, (basePart_words (enabled b) _ _ Hw Hf).
    reflexivity. }
  unfold iconFilename, iconFilenameParts. now rewrite Hd.
Qed.

(** X6.  Every call a cycle makes on the toolbar button is scoped to the
    tab of the snapshot, and so is the title it hands to the rate
    limiter; no call on the compose action names a tab, and there is no
    such call at all where the host has no compose action. *)
Theorem cycle_is_scoped_to_tab (params : BrowserActionState) :
  let body := doUpdateBrowserAction env params in
  (forall call, In call (hostCalls body) ->
      tabOf call = match surfaceOf call with
                   | browserAction => tabId params
                   | composeAction => None
                   end)
  /\ (forall title tab, In (title, tab) (titleRequests body) ->
        tab = tabId params)
  /\ (hasComposeAction env = false ->
      forall call, In call (hostCalls body) -> surfaceOf call = browserAction).
Proof.
  intros body. subst body.
  rewrite titleRequests_doUpdateBrowserAction,
    hostCalls_doUpdateBrowserAction.
  unfold overlayUpdateError, setIcon, optional.
  destruct (showUpdateError env (jpdictState params));
    destruct (hasComposeAction env); cbn;
    (split; [|split]);
    try (intros call Hin;
         repeat (destruct Hin as [<-|Hin]; [reflexivity|]); now elim Hin);
    try (intros title tab [H|[]]; congruence);
    try discriminate;
    intros _ call Hin;
    repeat (destruct Hin as [<-|Hin]; [reflexivity|]); now elim Hin.
Qed.

Lemma shownOn_app (on : Surface) (a b : list Instr) :
  shownOn on (a ++ b) = shownOn on a ++ shownOn on b.
Proof.
  induction a as [|[call|title tab] a IH]; cbn [shownOn app]; auto.
  - destruct (Surface_eqb (surfaceOf call) on); cbn; now rewrite IH.
  - destruct (Surface_eqb browserAction on); cbn; now rewrite IH.
Qed.

(** X7.  Where the host has a compose action, a cycle asks it to show
    what it asks the toolbar button to show, in the same order: the same
    icon, badge text, badge colour and title; where it has none, nothing
    is asked of it.  The toolbar button is always asked for an icon, then
    a badge text, and last a title. *)
Theorem compose_action_mirrors_toolbar (params : BrowserActionState) :
  let body := doUpdateBrowserAction env params in
  exists badge,
    shownOn composeAction body
    = (if hasComposeAction env then shownOn browserAction body else [])
    /\ shownOn browserAction body
       = shownIcon (iconDetails env (iconFilename env params))
           :: badge ++ [shownTitle (tooltipOf env params)]
    /\ (badge = [shownBadgeText ""]
        \/ badge = [shownBadgeText "!"; shownBadgeColor "yellow"]).
Proof.
  intros body. subst body.
  unfold doUpdateBrowserAction, tooltipOf, iconFilename, iconFilenameParts.
  destruct (deriveIcon env params) as [parts tooltip]; cbn [fst snd].
  unfold overlayUpdateError, setIcon, optional.
  destruct (showUpdateError env (jpdictState params));
    [exists [shownBadgeText "!"; shownBadgeColor "yellow"]
    |exists [shownBadgeText ""]];
    destruct (hasComposeAction env); cbn; auto.
Qed.

(** X11.  The tooltip follows a fixed precedence.  An update error that
    is shown wins over everything; otherwise a check or a download in
    progress wins over the base tooltip, the dictionary-error and the
    disabled tooltip included; otherwise the tooltip is that of the base
    step.  It depends neither on the style nor on the tab. *)
Theorem tooltip_precedence (params : BrowserActionState) :
  let j := jpdictState params in
  tooltipOf env params
  = (if showUpdateError env j then
       getMessage "command_toggle_update_error" []
     else
       match updateState j with
       | idle => baseTooltip (enabled params) j
       | checking _ => getMessage "command_toggle_checking" []
       | updating series totalProgress =>
           getMessage "command_toggle_downloading"
             [getLocalizedDataSeriesLabel env series;
              Number_toString env (JS.Math_round (totalProgress * 100)%float)]
       end)
  /\ In (messageName (baseTooltip (enabled params) j))
       ["command_toggle_enabled"; "command_toggle_loading";
        "error_loading_dictionary"; "command_toggle_disabled"]
  /\ (messageName (baseTooltip (enabled params) j) = "error_loading_dictionary"
      <-> selectsError params = true).
Proof.
  intros j. subst j. rewrite tooltipOf_eq, deriveIcon_eq. cbn [snd].
  split; [reflexivity|].
  rewrite selectsError_eq. unfold baseTooltip, basePart, chooseBase, JS.push.
  destruct (enabled params); [|cbn; intuition discriminate].
  destruct (_ || _); [|destruct (_ || _); [|destruct (_ =? _)%string]];
    cbn; intuition discriminate.
Qed.

Lemma showUpdateError_ext (a b : JpdictStateWithFallback) :
  (forall series, In series (allMajorDataSeries env) ->
      state a series = state b series) ->
  updateError a = updateError b ->
  showUpdateError env a = showUpdateError env b.
Proof.
  intros Hs He. unfold showUpdateError, hasNotOkDatabase, JS.some.
  rewrite He. f_equal.
  induction (allMajorDataSeries env) as [|series l IH]; [reflexivity|].
  cbn [existsb]. rewrite (Hs series) by now left.
  rewrite IH; [reflexivity|]. intros x Hx. apply Hs. now right.
Qed.

(** The badge a cycle sets, on every surface. *)
Lemma badge_of_cycle (params : BrowserActionState) :
  let body := doUpdateBrowserAction env params in
  let shown := showUpdateError env (jpdictState params) in
  badgeTexts (hostCalls body)
  = map (fun on => (on, if shown then "!" else "")) (surfaces env)
  /\ badgeColors (hostCalls body)
     = (if shown then map (fun on => (on, "yellow")) (surfaces env) else []).
Proof.
  intros body shown. subst body shown.
  rewrite hostCalls_doUpdateBrowserAction.
  rewrite !badgeTexts_app, !badgeColors_app.
  unfold overlayUpdateError, setIcon, optional, surfaces.
  destruct (showUpdateError env (jpdictState params));
    destruct (hasComposeAction env); cbn; auto.
Qed.

(** X12.  The badge depends on the states of the tracked series and on
    the update error, and on nothing else: a disabled snapshot, or one
    with a download in progress, gets the same badge text and colour as
    an enabled, idle one. *)
Theorem badge_depends_on_series_and_error (a b : BrowserActionState) :
  sameBadgeInputs env a b ->
  badgeTexts (hostCalls (doUpdateBrowserAction env a))
  = badgeTexts (hostCalls (doUpdateBrowserAction env b))
  /\ badgeColors (hostCalls (doUpdateBrowserAction env a))
     = badgeColors (hostCalls (doUpdateBrowserAction env b)).
Proof.
  intros [Hs He].
  destruct (badge_of_cycle a) as [Hta Hca].
  destruct (badge_of_cycle b) as [Htb Hcb].
  rewrite Hta, Hca, Htb, Hcb, (showUpdateError_ext _ _ Hs He). auto.
Qed.

End DerivationFacts.

(* ------------------------------------------------------------------ *)
(** ** The derivation on concrete snapshots *)
(* ------------------------------------------------------------------ *)

(** C2, as stated, fails.  A disabled snapshot with every series loaded
    and a download in progress keeps the disabled icon, and its tooltip is
    the downloading message, not the disabled message; while checking, it
    is the checking message. *)
Lemma disabled_tooltip_follows_progress :
  let downloading :=
    snapshot false (withUpdateState (updating words 0.43) allOk) default in
  let checks :=
    snapshot false (withUpdateState (checking kanji) allOk) default in
  enabled downloading = false
  /\ iconFilename browserEnv downloading = "10ten-disabled-40p-green"
  /\ titleRequests (doUpdateBrowserAction browserEnv downloading)
     = [(getMessage "command_toggle_downloading" ["words"; "43"], Some 7)]
  /\ tooltipOf browserEnv downloading
     <> getMessage "command_toggle_disabled" []
  /\ enabled checks = false
  /\ tooltipOf browserEnv checks = getMessage "command_toggle_checking" []
  /\ tooltipOf browserEnv checks <> getMessage "command_toggle_disabled" [].
Proof.
  cbv zeta. repeat split; try reflexivity; vm_compute; discriminate.
Qed.

Lemma disabled_base_and_tooltip_witness :
  let params :=
    snapshot false (withUpdateState (updating words 0.43) allOk) sky in
  enabled params = false
  /\ iconFilenameParts browserEnv params
     = ["10ten"; "sky"; "disabled"; "40p"; "green"]
  /\ tooltipOf browserEnv params
     = getMessage "command_toggle_downloading" ["words"; "43"].
Proof.
  intros params. split; [reflexivity|].
  destruct (disabled_base_and_tooltip browserEnv params eq_refl)
    as (Hparts & Htooltip & _).
  split; [rewrite Hparts | rewrite Htooltip]; reflexivity.
Defined.

(** The two cases of C3 on the snapshots of the specification: a network
    error with the words series not loaded is shown; an exceeded quota is
    not. *)
Lemma badge_iff_update_error_witness :
  let failed (name : string) :=
    snapshot true (withUpdateError (Some {| name := name |}) wordsFailed)
      default in
  (updateErrorShown browserEnv (jpdictState (failed "NetworkError"))
   /\ badgeTexts (hostCalls (doUpdateBrowserAction browserEnv
                               (failed "NetworkError")))
      = [(browserAction, "!")]
   /\ badgeColors (hostCalls (doUpdateBrowserAction browserEnv
                                (failed "NetworkError")))
      = [(browserAction, "yellow")])
  /\ (~ updateErrorShown browserEnv (jpdictState (failed "QuotaExceededError"))
      /\ badgeTexts (hostCalls (doUpdateBrowserAction browserEnv
                                  (failed "QuotaExceededError")))
         = [(browserAction, "")]
      /\ titleRequests (doUpdateBrowserAction browserEnv
                          (failed "QuotaExceededError"))
         = [(getMessage "error_loading_dictionary" [], Some 7)]).
Proof.
  intros failed.
  assert (Hshown : updateErrorShown browserEnv
                     (jpdictState (failed "NetworkError"))).
  { split.
    - exists words. split; [now left | discriminate].
    - eexists. split; [reflexivity | split; discriminate]. }
  assert (Hquota : ~ updateErrorShown browserEnv
                       (jpdictState (failed "QuotaExceededError"))).
  { intros [_ (e & He & _ & Hq)]. injection He as <-. now apply Hq. }
  split.
  - destruct (badge_iff_update_error browserEnv (failed "NetworkError"))
      as (_ & Hyes & _).
    destruct (Hyes Hshown) as (Ht & Hc & _). auto.
  - destruct (badge_iff_update_error browserEnv (failed "QuotaExceededError"))
      as (_ & _ & Hno).
    destruct (Hno Hquota) as (Ht & _ & Hr & _). auto.
Defined.

(** C4 at the failing input.  With the words database and its fallback
    failed, the base step selects the error icon; a snapshot that is
    checking for updates still gets the progress parts, and the host is
    asked for the icon [10ten-error-0p-green]. *)
Theorem checking_overlays_error_icon :
  let params :=
    snapshot true (withUpdateState (checking words) wordsFailed) default in
  selectsError params = true
  /\ iconFilenameParts browserEnv params = ["10ten"; "error"; "0p"; "green"]
  /\ hostCalls (doUpdateBrowserAction browserEnv params)
     = [setIcon_ browserAction (svg "images/10ten-error-0p-green.svg")
          (Some 7);
        setBadgeText browserAction "" (Some 7)].
Proof. cbv zeta. repeat split. Qed.

(** The number-to-string conversion on integers and fractions, on both
    sides of the switch to exponent notation, and on an integer above
    2^53, where the digits are the shortest that read back as the same
    double and not its exact decimal expansion. *)
Lemma Number_toString_examples :
  map JS.Number_toString
    [0; 40; 100; 0.43; 0.1; -2.5; 0.000001; 0.0000001;
     9007199254740992; 461168601842738790400; 100000000000000000000;
     1000000000000000000000; 5e-324; 1.7976931348623157e308;
     nan; infinity; neg_infinity]%float
  = ["0"; "40"; "100"; "0.43"; "0.1"; "-2.5"; "0.000001"; "1e-7";
     "9007199254740992"; "461168601842738800000"; "100000000000000000000";
     "1e+21"; "5e-324"; "1.7976931348623157e+308";
     "NaN"; "Infinity"; "-Infinity"].
Proof. vm_compute. reflexivity. Qed.

(** A download of the words series at 0.43: with every series loaded
    the icon is [10ten-40p-green]; with the words series failed, and so
    the error icon selected, the download adds no part. *)
Lemma progress_bucket_witness :
  let params :=
    snapshot true (withUpdateState (updating words 0.43) allOk) default in
  let failed :=
    snapshot true (withUpdateState (updating words 0.43) wordsFailed)
      default in
  (updateState (jpdictState params) = updating words 0.43
   /\ selectsError params = false
   /\ iconFilenameParts browserEnv params = ["10ten"; "40p"; "green"]
   /\ iconFilename browserEnv params = "10ten-40p-green")
  /\ (updateState (jpdictState failed) = updating words 0.43
      /\ selectsError failed = true
      /\ iconFilenameParts browserEnv failed = ["10ten"; "error"]).
Proof.
  intros params failed. split.
  - destruct (progress_bucket browserEnv params words 0.43%float eq_refl)
      as (Hparts & _ & Hname).
    destruct (Hname eq_refl eq_refl eq_refl) as (H43 & _).
    split; [reflexivity | split; [reflexivity | split]].
    + rewrite Hparts. reflexivity.
    + rewrite (H43 eq_refl). reflexivity.
  - destruct (progress_bucket browserEnv failed words 0.43%float eq_refl)
      as (Hparts & _).
    split; [reflexivity | split; [reflexivity|]].
    rewrite Hparts. reflexivity.
Defined.

(** C6, as stated, fails.  Where the host has a compose action, a cycle
    sets the title of that surface by a direct call, beside the request
    it hands to the rate limiter. *)
Lemma compose_title_set_directly :
  let params := snapshot true allOk default in
  hostCalls (doUpdateBrowserAction mailEnv params)
  = [setIcon_ browserAction (svg "images/10ten.svg") (Some 7);
     setIcon_ composeAction (svg "images/10ten.svg") None;
     setBadgeText browserAction "" (Some 7);
     setBadgeText composeAction "" None;
     setTitle composeAction (getMessage "command_toggle_enabled" []) None]
  /\ existsb isSetTitle (hostCalls (doUpdateBrowserAction mailEnv params))
     = true.
Proof. cbv zeta. split; reflexivity. Qed.

(** C9, as stated, fails.  In the file name of a disabled snapshot with
    the [sky] style, the style part stands before the part chosen by the
    base step, not after it. *)
Lemma sky_precedes_base_part :
  let params := snapshot false allOk sky in
  iconFilenameParts browserEnv params = ["10ten"; "sky"; "disabled"]
  /\ iconFilename browserEnv params = "10ten-sky-disabled"
  /\ precedes "sky" "disabled" (iconFilenameParts browserEnv params)
  /\ ~ precedes "disabled" "sky" (iconFilenameParts browserEnv params).
Proof.
  cbv zeta. split; [reflexivity | split; [reflexivity | split]].
  - now exists ["10ten"], [], [].
  - intros (l1 & l2 & l3 & H). vm_compute in H.
    destruct l1 as [|a [|b [|c l1]]]; try discriminate H.
    + injection H as _ _ H. destruct l2; discriminate H.
    + injection H as _ _ _ H. destruct l1; discriminate H.
Qed.

Lemma setDefaultToolbarIcon_swaps_style_witness :
  let params := snapshot false allOk default in
  iconFilename browserEnv (withToolbarIcon sky params) = "10ten-sky-disabled"
  /\ hostCalls (setDefaultToolbarIcon browserEnv sky)
     = [setIcon_ browserAction (svg "images/10ten-disabled.svg") None]
  /\ iconFilename browserEnv (withToolbarIcon default params)
     = "10ten-disabled"
  /\ hostCalls (setDefaultToolbarIcon browserEnv default)
     = [setIcon_ browserAction (svg "images/10ten-sky-disabled.svg") None].
Proof.
  intros params.
  destruct (setDefaultToolbarIcon_swaps_style browserEnv)
    as (_ & _ & Hcalls & Hcycle).
  destruct (Hcycle params eq_refl eq_refl) as (Hsky & Hdefault).
  rewrite Hsky, Hdefault, !Hcalls. repeat split.
Defined.

Lemma updating_keeps_error_icon_witness :
  let params :=
    snapshot true (withUpdateState (updating kanji 0.8) wordsFailed) sky in
  (selectsError params = true
   /\ updateState (jpdictState params) = updating kanji 0.8)
  /\ iconFilename browserEnv params = "10ten-sky-error"
  /\ tooltipOf browserEnv params
     = getMessage "command_toggle_downloading" ["kanji"; "80"].
Proof.
  intros params.
  destruct (updating_keeps_error_icon browserEnv params kanji 0.8%float
              eq_refl eq_refl) as (Hparts & Htooltip).
  split; [split; reflexivity|]. split.
  - unfold iconFilename. rewrite Hparts. reflexivity.
  - rewrite tooltipOf_eq, Htooltip. reflexivity.
Defined.


(** The names series has failed and an update error is shown on the
    badge of tab 7; the icon is the one of a snapshot with every series
    loaded, no error and no tab. *)
Lemma icon_depends_on_words_only_witness :
  let troubled :=
    {| enabled := true;
       jpdictState :=
         {| words_state := "ok"; words_fallbackState := "unloaded";
            names_state := "unavailable"; kanji_state := "init";
            radicals_state := "empty";
            updateState := idle;
            updateError := Some {| name := "NetworkError" |} |};
       tabId := Some 7; toolbarIcon := sky |} in
  let fine :=
    {| enabled := true; jpdictState := allOk; tabId := None;
       toolbarIcon := sky |} in
  sameIconInputs troubled fine
  /\ iconFilename browserEnv troubled = "10ten-sky"
  /\ iconFilename browserEnv fine = "10ten-sky"
  /\ showUpdateError browserEnv (jpdictState troubled) = true.
Proof.
  intros troubled fine.
  assert (H : sameIconInputs troubled fine) by (repeat split).
  destruct (icon_depends_on_words_only browserEnv troubled fine H)
    as (Hname & _).
  split; [exact H|]. rewrite Hname. repeat split.
Defined.

(** On a mail client with an update error shown, the compose action and
    the toolbar button are asked for the same four things. *)
Lemma compose_action_mirrors_toolbar_witness :
  let params :=
    snapshot true
      (withUpdateError (Some {| name := "NetworkError" |}) wordsFailed)
      default in
  shownOn composeAction (doUpdateBrowserAction mailEnv params)
  = [shownIcon (svg "images/10ten-error.svg");
     shownBadgeText "!"; shownBadgeColor "yellow";
     shownTitle (getMessage "command_toggle_update_error" [])]
  /\ shownOn composeAction (doUpdateBrowserAction browserEnv params) = [].
Proof.
  intros params.
  destruct (compose_action_mirrors_toolbar mailEnv params)
    as (badge & Hcompose & _).
  destruct (compose_action_mirrors_toolbar browserEnv params)
    as (badge' & Hnone & _).
  rewrite Hcompose, Hnone. split; reflexivity.
Defined.

(** A disabled snapshot that is downloading keeps the badge of the update
    error. *)
Lemma badge_depends_on_series_and_error_witness :
  let failed :=
    withUpdateError (Some {| name := "NetworkError" |}) wordsFailed in
  let plain := snapshot true failed default in
  let busy :=
    snapshot false (withUpdateState (updating names 0.6) failed) sky in
  sameBadgeInputs browserEnv busy plain
  /\ badgeTexts (hostCalls (doUpdateBrowserAction browserEnv busy))
     = [(browserAction, "!")]
  /\ badgeColors (hostCalls (doUpdateBrowserAction browserEnv busy))
     = [(browserAction, "yellow")].
Proof.
  intros failed plain busy.
  assert (H : sameBadgeInputs browserEnv busy plain)
    by (split; [intros series _; now destruct series | reflexivity]).
  destruct (badge_depends_on_series_and_error browserEnv busy plain H)
    as (Ht & Hc).
  split; [exact H|]. rewrite Ht, Hc. split; reflexivity.
Defined.

(* ================================================================== *)
(** * Properties of the update loop *)
(* ================================================================== *)

Lemma cyclesStarted_app (a b : list LogEntry) :
  cyclesStarted (a ++ b) = cyclesStarted a ++ cyclesStarted b.
Proof.
  induction a as [|[] a IH]; cbn [cyclesStarted app]; auto. now rewrite IH.
Qed.

Lemma cyclesEnded_app (a b : list LogEntry) :
  cyclesEnded (a ++ b) = (cyclesEnded a + cyclesEnded b)%nat.
Proof.
  unfold cyclesEnded. now rewrite filter_app, length_app.
Qed.

Lemma inFlight_app (a b : list LogEntry) :
  inFlight (a ++ b) = inFlight a + inFlight b.
Proof.
  unfold inFlight. rewrite cyclesStarted_app, cyclesEnded_app, length_app. lia.
Qed.

(** Running a body to its next suspension starts and ends no cycle. *)
Lemma resume_entries (body : list Instr) :
  cyclesStarted (fst (resume body)) = []
  /\ cyclesEnded (fst (resume body)) = 0%nat.
Proof.
  induction body as [|[call|title tab] body [IHs IHe]]; cbn; auto.
  destruct (resume body) as [entries suspended]. cbn in *. auto.
Qed.


Section LoopFacts.

Variable env : Environment.

(** The first thing a cycle does with the host is to await [setIcon] on
    the toolbar button: every cycle suspends. *)
Lemma doUpdateBrowserAction_first (params : BrowserActionState) :
  exists rest,
    doUpdateBrowserAction env params
    = await (setIcon_ browserAction
               (iconDetails env (iconFilename env params)) (tabId params))
        :: rest.
Proof.
  unfold doUpdateBrowserAction, iconFilename, iconFilenameParts, setIcon.
  destruct (deriveIcon env params) as [parts tooltip]; cbn [fst snd].
  destruct (overlayUpdateError env _ _ _) as [badge tooltip'].
  cbn [app]. eexists. reflexivity.
Qed.

Lemma iteration_eq (params : BrowserActionState) (lg : list LogEntry) :
  exists t call,
    rendering t = params
    /\ iteration env params lg
       = (Some None, Some t, lg ++ [CycleStarted params; HostCalled call]).
Proof.
  destruct (doUpdateBrowserAction_first params) as [rest H].
  unfold iteration. rewrite H. cbn [resume].
  eexists {| rendering := params |}, _. split; reflexivity.
Qed.

Lemma afterTry_next (params next : BrowserActionState) (ok : bool)
  (lg : list LogEntry) :
  exists t call,
    rendering t = next
    /\ afterTry env params ok (Some (Some next)) lg
       = (Some None, Some t,
          lg ++ [CycleEnded params ok; CycleStarted next; HostCalled call]).
Proof.
  unfold afterTry.
  destruct (iteration_eq next (lg ++ [CycleEnded params ok]))
    as (t & call & Ht & H).
  exists t, call. split; [exact Ht|]. rewrite H.
  now rewrite <- app_assoc.
Qed.

Lemma afterTry_none (params : BrowserActionState) (ok : bool)
  (update : option (option BrowserActionState)) (lg : list LogEntry) :
  update = None \/ update = Some None ->
  afterTry env params ok update lg = (None, None, lg ++ [CycleEnded params ok]).
Proof. now intros [-> | ->]. Qed.

Lemma step_resolved (st : Coalescer) (t : Task) :
  tasks st = [t] ->
  step env st (Resolved 0)
  = settled env st t true (fst (resume (continuation t)))
      (snd (resume (continuation t))).
Proof.
  intros Ht. unfold step, settled. rewrite Ht. cbn [nth_error].
  destruct (resume (continuation t)) as [entries [[call rest]|]];
    cbn [fst snd].
  - reflexivity.
  - destruct (afterTry env _ _ _ _) as [[update t'] lg].
    unfold replaceTask. cbn. now rewrite app_nil_r.
Qed.

Lemma step_rejected (st : Coalescer) (t : Task) :
  tasks st = [t] ->
  step env st (Rejected 0) = settled env st t false [] None.
Proof.
  intros Ht. unfold step, settled. rewrite Ht. cbn [nth_error].
  rewrite app_nil_r.
  destruct (afterTry env _ _ _ _) as [[update t'] lg].
  unfold replaceTask. cbn. now rewrite app_nil_r.
Qed.

Lemma step_other_task (st : Coalescer) (t : Task) (i : nat) :
  tasks st = [t] ->
  step env st (Resolved (S i)) = st /\ step env st (Rejected (S i)) = st.
Proof.
  intros Ht. unfold step. rewrite Ht. cbn [nth_error].
  now destruct i.
Qed.

Lemma step_idle_settle (st : Coalescer) (i : nat) :
  tasks st = [] ->
  step env st (Resolved i) = st /\ step env st (Rejected i) = st.
Proof.
  intros Ht. unfold step. rewrite Ht. now destruct i.
Qed.

(** The end of a cycle in a running state. *)
Lemma settled_end (st : Coalescer) (t : Task) (ok : bool)
  (entries : list LogEntry) :
  settled env st t ok entries None
  = match currentUpdate st with
    | Some (Some next) =>
        let '(update, t', lg) :=
          afterTry env (rendering t) ok (Some (Some next))
            (log st ++ entries) in
        {| currentUpdate := update; tasks := option_list t'; log := lg |}
    | _ =>
        {| currentUpdate := None; tasks := [];
           log := log st ++ entries ++ [CycleEnded (rendering t) ok] |}
    end.
Proof.
  unfold settled.
  destruct (currentUpdate st) as [[next|]|]; try reflexivity;
    rewrite afterTry_none by auto; cbn; now rewrite <- app_assoc.
Qed.

Lemma step_phase (st : Coalescer) (e : Event) :
  Phase st -> Phase (step env st e).
Proof.
  intros [Hc Ht Hf | next t Hc Ht Hf].
  - destruct e as [params | i | i].
    + unfold step. rewrite Hc, Ht.
      destruct (iteration_eq params (log st)) as (t & call & _ & ->).
      apply (Running _ None t); cbn; auto.
      rewrite inFlight_app, Hf. reflexivity.
    + rewrite (proj1 (step_idle_settle st i Ht)). now apply Idle.
    + rewrite (proj2 (step_idle_settle st i Ht)). now apply Idle.
  - assert (Hend : forall ok entries,
               cyclesStarted entries = [] -> cyclesEnded entries = 0%nat ->
               Phase (settled env st t ok entries None)).
    { intros ok entries Hs He. rewrite settled_end, Hc.
      assert (Hl : inFlight (log st ++ entries) = 1).
      { rewrite inFlight_app, Hf. unfold inFlight. rewrite Hs, He.
        reflexivity. }
      destruct next as [next|].
      - destruct (afterTry_next (rendering t) next ok (log st ++ entries))
          as (t' & call & _ & ->).
        apply (Running _ None t'); cbn; auto.
        rewrite inFlight_app, Hl. reflexivity.
      - apply Idle; cbn; auto.
        rewrite app_assoc, inFlight_app, Hl. reflexivity. }
    destruct e as [params | [|i] | [|i]].
    + unfold step. rewrite Hc.
      now apply (Running _ (Some params) t).
    + rewrite (step_resolved st t Ht).
      pose proof (resume_entries (continuation t)) as [Hs He].
      destruct (resume (continuation t)) as [entries [[call rest]|]];
        cbn [fst snd] in *.
      * eapply Running; cbn; eauto.
        rewrite inFlight_app, Hf. unfold inFlight. rewrite Hs, He.
        reflexivity.
      * now apply Hend.
    + rewrite (proj1 (step_other_task st t i Ht)).
      now apply (Running _ next t).
    + rewrite (step_rejected st t Ht). now apply Hend.
    + rewrite (proj2 (step_other_task st t i Ht)).
      now apply (Running _ next t).
Qed.

Lemma run_phase (st : Coalescer) (events : list Event) :
  Phase st -> Phase (run env st events).
Proof.
  revert st. induction events as [|e events IH]; intros st H; [exact H|].
  apply IH, step_phase, H.
Qed.

Lemma reachable_phase (st : Coalescer) : reachable env st -> Phase st.
Proof.
  intros [events ->]. apply run_phase. now apply Idle.
Qed.

(** What one event does to a running loop: either the cycle goes on,
    and a submission has replaced the pending snapshot; or the cycle has
    ended, and the pending snapshot, if there is one, has started the
    next cycle. *)
Lemma step_running (st : Coalescer) (e : Event)
  (next : option BrowserActionState) (t : Task) :
  currentUpdate st = Some next -> tasks st = [t] ->
  let st' := step env st e in
  (cyclesEnded (log st') = cyclesEnded (log st)
   /\ cyclesStarted (log st') = cyclesStarted (log st)
   /\ (exists t', tasks st' = [t'] /\ rendering t' = rendering t)
   /\ currentUpdate st'
      = Some (match e with Submit params => Some params | _ => next end))
  \/ (cyclesEnded (log st') = S (cyclesEnded (log st))
      /\ (e = Resolved 0 \/ e = Rejected 0)
      /\ match next with
         | Some params =>
             cyclesStarted (log st') = cyclesStarted (log st) ++ [params]
             /\ currentUpdate st' = Some None
             /\ exists t', tasks st' = [t'] /\ rendering t' = params
         | None =>
             cyclesStarted (log st') = cyclesStarted (log st)
             /\ currentUpdate st' = None /\ tasks st' = []
         end).
Proof.
  intros Hc Ht st'. subst st'.
  assert (Hend : forall ok entries,
             cyclesStarted entries = [] -> cyclesEnded entries = 0%nat ->
             let st' := settled env st t ok entries None in
             cyclesEnded (log st') = S (cyclesEnded (log st))
             /\ match next with
                | Some params =>
                    cyclesStarted (log st')
                    = cyclesStarted (log st) ++ [params]
                    /\ currentUpdate st' = Some None
                    /\ exists t', tasks st' = [t'] /\ rendering t' = params
                | None =>
                    cyclesStarted (log st') = cyclesStarted (log st)
                    /\ currentUpdate st' = None /\ tasks st' = []
                end).
  { intros ok entries Hs He. cbv zeta. rewrite settled_end, Hc.
    destruct next as [params|].
    - destruct (afterTry_next (rendering t) params ok (log st ++ entries))
        as (t' & call & Hr & ->).
      cbn [log currentUpdate tasks option_list].
      rewrite !cyclesEnded_app, !cyclesStarted_app, Hs, He.
      cbn. rewrite app_nil_r. repeat split; eauto; lia.
    - cbn [log currentUpdate tasks].
      rewrite !cyclesEnded_app, !cyclesStarted_app, Hs, He.
      cbn. rewrite app_nil_r. repeat split; lia. }
  destruct e as [params | [|i] | [|i]].
  - left. unfold step. rewrite Hc. cbn [log tasks currentUpdate].
    repeat split; eauto.
  - rewrite (step_resolved st t Ht).
    pose proof (resume_entries (continuation t)) as [Hs He].
    destruct (resume (continuation t)) as [entries [[call rest]|]];
      cbn [fst snd] in *.
    + left. cbn [settled log tasks currentUpdate].
      rewrite cyclesEnded_app, cyclesStarted_app, Hs, He, app_nil_r.
      repeat split; eauto; lia.
    + right. destruct (Hend true entries Hs He) as [H1 H2]. auto.
  - left. rewrite (proj1 (step_other_task st t i Ht)).
    repeat split; eauto.
  - right. rewrite (step_rejected st t Ht).
    destruct (Hend false [] eq_refl eq_refl) as [H1 H2]. auto.
  - left. rewrite (proj2 (step_other_task st t i Ht)).
    repeat split; eauto.
Qed.

(** An event never shortens the log of a running loop. *)
Lemma step_running_ended (st : Coalescer) (e : Event)
  (next : option BrowserActionState) (t : Task) :
  currentUpdate st = Some next -> tasks st = [t] ->
  (cyclesEnded (log st) <= cyclesEnded (log (step env st e)))%nat.
Proof.
  intros Hc Ht.
  destruct (step_running st e next t Hc Ht) as [(H & _) | (H & _)]; lia.
Qed.

Lemma step_idle_ended (st : Coalescer) (e : Event) :
  currentUpdate st = None -> tasks st = [] ->
  (cyclesEnded (log st) <= cyclesEnded (log (step env st e)))%nat.
Proof.
  intros Hc Ht. destruct e as [params | i | i].
  - unfold step. rewrite Hc.
    destruct (iteration_eq params (log st)) as (t & call & _ & ->).
    cbn [log]. rewrite cyclesEnded_app. lia.
  - rewrite (proj1 (step_idle_settle st i Ht)). lia.
  - rewrite (proj2 (step_idle_settle st i Ht)). lia.
Qed.

Lemma run_ended (st : Coalescer) (events : list Event) :
  Phase st ->
  (cyclesEnded (log st) <= cyclesEnded (log (run env st events)))%nat.
Proof.
  revert st. induction events as [|e events IH]; intros st H; [cbn; lia|].
  cbn [run fold_left]. fold (run env (step env st e) events).
  specialize (IH (step env st e) (step_phase st e H)).
  destruct H as [Hc Ht _ | next t Hc Ht _].
  - pose proof (step_idle_ended st e Hc Ht). lia.
  - pose proof (step_running_ended st e next t Hc Ht). lia.
Qed.

Lemma pendingAfter_cons (next : option BrowserActionState) (e : Event)
  (events : list Event) :
  pendingAfter next (e :: events)
  = pendingAfter (match e with Submit params => Some params | _ => next end)
      events.
Proof.
  unfold pendingAfter. destruct e as [params | i | i]; try reflexivity.
  cbn [submitted map]. generalize (map Some (submitted events)).
  intros l. revert params. induction l as [|x l IH]; intros params.
  - reflexivity.
  - cbn [last]. destruct l; [reflexivity|]. apply (IH params).
Qed.

(** While the running cycle does not end, no cycle is started and the
    pending snapshot is the one submitted last. *)
Lemma run_quiet (events : list Event) :
  forall (st : Coalescer) (next : option BrowserActionState) (t : Task),
    Phase st -> currentUpdate st = Some next -> tasks st = [t] ->
    cyclesEnded (log (run env st events)) = cyclesEnded (log st) ->
    cyclesStarted (log (run env st events)) = cyclesStarted (log st)
    /\ (exists t', tasks (run env st events) = [t']
                   /\ rendering t' = rendering t)
    /\ currentUpdate (run env st events) = Some (pendingAfter next events).
Proof.
  induction events as [|e events IH]; intros st next t Hp Hc Ht Hq.
  - cbn. eauto.
  - cbn [run fold_left] in *. fold (run env (step env st e) events) in *.
    pose proof (run_ended (step env st e) events (step_phase st e Hp)) as Hm.
    rewrite pendingAfter_cons.
    destruct (step_running st e next t Hc Ht)
      as [(He & Hs & (t' & Ht' & Hr) & Hc') | (He & _)]; [|lia].
    destruct (IH (step env st e) _ t' (step_phase st e Hp) Hc' Ht')
      as (Hs' & (t'' & Ht'' & Hr') & Hc''); [lia|].
    rewrite Hs', Hs, Hc''. repeat split. exists t''. split; congruence.
Qed.

(** With nothing pending and no further submission, no cycle starts. *)
Lemma run_no_submission (events : list Event) :
  forall st : Coalescer,
    Phase st ->
    currentUpdate st = None \/ currentUpdate st = Some None ->
    submitted events = [] ->
    cyclesStarted (log (run env st events)) = cyclesStarted (log st).
Proof.
  induction events as [|e events IH]; intros st Hp Hc Hs; [reflexivity|].
  cbn [run fold_left]. fold (run env (step env st e) events).
  destruct e as [params | i | i]; [discriminate Hs | |];
    cbn [submitted] in Hs.
  all: destruct Hp as [Hc' Ht Hf | next t Hc' Ht Hf].
  1, 3: rewrite ?(proj1 (step_idle_settle st i Ht)),
          ?(proj2 (step_idle_settle st i Ht));
        apply IH; auto; now apply Idle.
  all: assert (next = None) as -> by (destruct Hc; congruence).
  all: pose proof (fun e => step_phase st e (Running st None t Hc' Ht Hf))
         as Hp'.
  - destruct (step_running st (Resolved i) None t Hc' Ht)
      as [(_ & Hst & _ & Hcu) | (_ & _ & Hst & Hcu & _)];
      rewrite <- Hst; apply IH; auto.
  - destruct (step_running st (Rejected i) None t Hc' Ht)
      as [(_ & Hst & _ & Hcu) | (_ & _ & Hst & Hcu & _)];
      rewrite <- Hst; apply IH; auto.
Qed.

Lemma lastOf_snoc {A : Type} (l : list A) (x : A) : lastOf (l ++ [x]) = Some x.
Proof. unfold lastOf. rewrite map_app. apply last_last. Qed.

Lemma submitted_snoc (events : list Event) (e : Event) :
  submitted (events ++ [e])
  = submitted events
      ++ match e with Submit params => [params] | _ => [] end.
Proof.
  induction events as [|[] events IH]; cbn [submitted app].
  - destruct e; reflexivity.
  - now rewrite IH.
  - exact IH.
  - exact IH.
Qed.

Lemma step_submit_idle (st : Coalescer) (params : BrowserActionState) :
  currentUpdate st = None -> tasks st = [] ->
  exists t,
    rendering t = params
    /\ tasks (step env st (Submit params)) = [t]
    /\ currentUpdate (step env st (Submit params)) = Some None
    /\ cyclesStarted (log (step env st (Submit params)))
       = cyclesStarted (log st) ++ [params].
Proof.
  intros Hc Ht. unfold step. rewrite Hc, Ht.
  destruct (iteration_eq params (log st)) as (t & call & Hr & ->).
  exists t. cbn [tasks currentUpdate log app option_list].
  rewrite cyclesStarted_app. cbn. auto.
Qed.

(** The snapshot being rendered is the one whose cycle started last, and
    the snapshot submitted last is the pending one, or the one being
    rendered when none is pending. *)
Lemma run_latest (events : list Event) :
  let st := run env initial events in
  match tasks st with
  | [] => lastOf (cyclesStarted (log st)) = lastOf (submitted events)
  | t :: _ =>
      lastOf (cyclesStarted (log st)) = Some (rendering t)
      /\ lastOf (submitted events)
         = Some (match currentUpdate st with
                 | Some (Some params) => params
                 | _ => rendering t
                 end)
  end.
Proof.
  induction events as [|e events IH] using rev_ind; [reflexivity|].
  cbv zeta in *. unfold run in *. rewrite fold_left_app. cbn [fold_left].
  fold (run env initial events) in *.
  assert (Hp : Phase (run env initial events))
    by (apply reachable_phase; now exists events).
  rewrite submitted_snoc.
  destruct Hp as [Hc Ht _ | next t Hc Ht _]; rewrite Ht in IH.
  - destruct e as [params | i | i].
    + destruct (step_submit_idle _ params Hc Ht) as (t & Hr & -> & -> & ->).
      rewrite !lastOf_snoc. now rewrite Hr.
    + rewrite (proj1 (step_idle_settle _ i Ht)), Ht, app_nil_r. exact IH.
    + rewrite (proj2 (step_idle_settle _ i Ht)), Ht, app_nil_r. exact IH.
  - destruct IH as [IHs IHl]. rewrite Hc in IHl.
    destruct (step_running _ e next t Hc Ht)
      as [(_ & Hs & (t' & -> & Hr) & ->) | (_ & He & Hn)].
    + rewrite Hs, Hr. split; [exact IHs|].
      destruct e as [params | i | i]; [apply lastOf_snoc | |];
        now rewrite app_nil_r.
    + assert (Hsub : submitted events
                       ++ match e with Submit p => [p] | _ => [] end
                     = submitted events)
        by (destruct He as [-> | ->]; apply app_nil_r).
      rewrite Hsub. destruct next as [params|].
      * destruct Hn as (-> & -> & (t' & -> & Hr)).
        rewrite lastOf_snoc, Hr. auto.
      * destruct Hn as (-> & _ & ->). congruence.
Qed.

Lemma trace_app (a b : list Instr) : trace (a ++ b) = trace a ++ trace b.
Proof. apply map_app. Qed.

(** What [resume] logs is the trace of the stretch it ran through. *)
Lemma resume_trace (body : list Instr) :
  match snd (resume body) with
  | Some (call, rest) =>
      exists mid,
        body = mid ++ await call :: rest
        /\ fst (resume body) = trace (mid ++ [await call])
        /\ hostCalls mid = []
  | None => fst (resume body) = trace body /\ hostCalls body = []
  end.
Proof.
  induction body as [|[call|title tab] body IH]; cbn.
  - auto.
  - now exists [].
  - destruct (resume body) as [entries [[call rest]|]]; cbn in *.
    + destruct IH as (mid & -> & -> & Hm).
      exists (throttledSetTitle title tab :: mid). auto.
    + destruct IH as [-> Hb]. auto.
Qed.

Lemma iteration_first (params : BrowserActionState) (lg : list LogEntry) :
  exists call rest,
    doUpdateBrowserAction env params = await call :: rest
    /\ iteration env params lg
       = (Some None,
          Some {| rendering := params; awaiting := call;
                  continuation := rest |},
          lg ++ [CycleStarted params; HostCalled call]).
Proof.
  destruct (doUpdateBrowserAction_first params) as [rest H].
  eexists _, rest. split; [exact H|].
  unfold iteration. now rewrite H.
Qed.

Lemma afterTry_consistent (params : BrowserActionState) (ok : bool)
  (update : option (option BrowserActionState)) (lg : list LogEntry) :
  CycleLog env (lg ++ [CycleEnded params ok]) ->
  Consistent env
    (let '(update', t', lg') := afterTry env params ok update lg in
     {| currentUpdate := update'; tasks := option_list t'; log := lg' |}).
Proof.
  intros Hl. unfold afterTry.
  destruct update as [[next|]|]; try exact Hl.
  destruct (iteration_first next (lg ++ [CycleEnded params ok]))
    as (call & rest & Hb & ->).
  unfold Consistent.
  cbn [tasks option_list log rendering awaiting continuation].
  exists (lg ++ [CycleEnded params ok]), []. auto.
Qed.

Lemma step_consistent (st : Coalescer) (e : Event) :
  Phase st -> Consistent env st -> Consistent env (step env st e).
Proof.
  intros [Hc Ht _ | next t Hc Ht _] Hst.
  - destruct e as [params | i | i].
    + unfold step. rewrite Hc, Ht.
      destruct (iteration_first params (log st)) as (call & rest & Hb & ->).
      unfold Consistent in *. rewrite Ht in Hst.
      cbn [tasks option_list app log rendering awaiting continuation].
      exists (log st), []. auto.
    + now rewrite (proj1 (step_idle_settle st i Ht)).
    + now rewrite (proj2 (step_idle_settle st i Ht)).
  - assert (Hrun := Hst). unfold Consistent in Hrun. rewrite Ht in Hrun.
    destruct Hrun as (l & before & Hl & Hbody & Hlog).
    destruct e as [params | [|i] | [|i]].
    + unfold step. rewrite Hc. unfold Consistent. cbn [tasks log].
      rewrite Ht. eauto.
    + rewrite (step_resolved st t Ht).
      pose proof (resume_trace (continuation t)) as Hr.
      destruct (resume (continuation t)) as [entries [[call rest]|]];
        cbn [fst snd] in Hr.
      * destruct Hr as (mid & Hcont & -> & _).
        unfold settled, Consistent.
        cbn [fst snd tasks log rendering awaiting continuation].
        exists l, (before ++ await (awaiting t) :: mid).
        split; [exact Hl|]. split.
        -- rewrite Hbody, Hcont, <- app_assoc. reflexivity.
        -- rewrite Hlog, <- !app_assoc, !trace_app. cbn [app].
           rewrite <- !app_assoc. reflexivity.
      * destruct Hr as [-> _]. unfold settled. cbn [fst snd].
        apply afterTry_consistent.
        rewrite Hlog, <- !app_assoc. cbn [app].
        rewrite (app_assoc (trace _) (trace _)), <- trace_app, <- app_assoc.
        cbn [app]. rewrite <- Hbody. now apply Completed.
    + now rewrite (proj1 (step_other_task st t i Ht)).
    + rewrite (step_rejected st t Ht). unfold settled.
      apply afterTry_consistent.
      rewrite app_nil_r, Hlog, <- !app_assoc. cbn [app].
      now apply (Failed env l _ before _ (continuation t)).
    + now rewrite (proj2 (step_other_task st t i Ht)).
Qed.

(** X8.  The host sees whole cycles, one after the other and never two
    interleaved.  A cycle that ends well has made every call of
    [doUpdateBrowserAction] for its snapshot, in the order of the source;
    a cycle that fails has made the calls up to the rejected one and
    none that follows it: after a rejected [setIcon], for one, neither
    the badge nor the title of that snapshot is set.  While a cycle
    runs, the log ends in the calls of that cycle up to the one it
    awaits. *)
Theorem log_is_whole_cycles (events : list Event) :
  Consistent env (run env initial events).
Proof.
  induction events as [|e events IH] using rev_ind; [apply NoCycle|].
  unfold run. rewrite fold_left_app. cbn [fold_left].
  apply step_consistent; [|exact IH].
  apply reachable_phase. now exists events.
Qed.

Lemma run_consistent (st : Coalescer) (events : list Event) :
  Phase st -> Consistent env st -> Consistent env (run env st events).
Proof.
  revert st. induction events as [|e events IH]; intros st Hp Hst.
  - exact Hst.
  - apply IH; [apply step_phase, Hp | apply step_consistent; assumption].
Qed.

Lemma cyclesStarted_trace (body : list Instr) : cyclesStarted (trace body) = [].
Proof. induction body as [|[call|title tab] body IH]; cbn; auto. Qed.

(** The end of a running cycle with a snapshot pending: the loop logs the
    end of the cycle and starts [doUpdateBrowserAction] for the pending
    snapshot, up to its first call. *)
Lemma step_running_end (st : Coalescer) (e : Event)
  (params : BrowserActionState) (t : Task) :
  currentUpdate st = Some (Some params) -> tasks st = [t] ->
  cyclesEnded (log (step env st e)) <> cyclesEnded (log st) ->
  exists call rest entries ok,
    doUpdateBrowserAction env params = await call :: rest
    /\ cyclesStarted entries = []
    /\ (e = Rejected 0 -> entries = [] /\ ok = false)
    /\ step env st e
       = {| currentUpdate := Some None;
            tasks := [{| rendering := params; awaiting := call;
                         continuation := rest |}];
            log := log st
                     ++ entries
                     ++ [CycleEnded (rendering t) ok; CycleStarted params;
                         HostCalled call] |}.
Proof.
  intros Hc Ht He.
  assert (Hend : forall ok entries,
             exists call rest,
               doUpdateBrowserAction env params = await call :: rest
               /\ settled env st t ok entries None
                  = {| currentUpdate := Some None;
                       tasks := [{| rendering := params; awaiting := call;
                                    continuation := rest |}];
                       log := log st
                                ++ entries
                                ++ [CycleEnded (rendering t) ok;
                                    CycleStarted params; HostCalled call] |}).
  { intros ok entries. rewrite settled_end, Hc. unfold afterTry.
    destruct (iteration_first params
                ((log st ++ entries) ++ [CycleEnded (rendering t) ok]))
      as (call & rest & Hb & ->).
    exists call, rest. split; [exact Hb|].
    cbn [option_list]. now rewrite <- !app_assoc. }
  destruct e as [submitted | [|i] | [|i]].
  - exfalso. apply He. unfold step. now rewrite Hc.
  - rewrite (step_resolved st t Ht) in *.
    pose proof (resume_entries (continuation t)) as [Hs Hn].
    destruct (resume (continuation t)) as [entries [[call rest]|]];
      cbn [fst snd] in *.
    + exfalso. apply He. cbn [settled log].
      rewrite cyclesEnded_app, Hn. lia.
    + destruct (Hend true entries) as (call & rest & Hb & ->).
      exists call, rest, entries, true. repeat split; auto; discriminate.
  - exfalso. apply He. now rewrite (proj1 (step_other_task st t i Ht)).
  - rewrite (step_rejected st t Ht) in *.
    destruct (Hend false []) as (call & rest & Hb & ->).
    exists call, rest, [], false. repeat split; auto.
  - exfalso. apply He. now rewrite (proj2 (step_other_task st t i Ht)).
Qed.

(** A cycle whose calls all resolve, with nothing pending: the host sees
    the rest of its body, the cycle ends well and the loop is idle. *)
Lemma resolve_all (k : nat) :
  forall (st : Coalescer) (t : Task),
    tasks st = [t] -> currentUpdate st = Some None ->
    length (hostCalls (continuation t)) = k ->
    run env st (repeat (Resolved 0) (S k))
    = {| currentUpdate := None; tasks := [];
         log := log st
                  ++ trace (continuation t)
                  ++ [CycleEnded (rendering t) true] |}.
Proof.
  induction k as [|k IH]; intros st t Ht Hc Hk;
    change (run env st (repeat (Resolved 0) (S ?n)))
      with (run env (step env st (Resolved 0)) (repeat (Resolved 0) n));
    rewrite (step_resolved st t Ht);
    pose proof (resume_trace (continuation t)) as Hr;
    destruct (resume (continuation t)) as [entries [[call rest]|]];
    cbn [fst snd] in Hr.
  - destruct Hr as (mid & Hcont & _ & Hm).
    rewrite Hcont, hostCalls_app, Hm in Hk. discriminate Hk.
  - destruct Hr as [-> _]. cbn [repeat run fold_left].
    now rewrite settled_end, Hc.
  - destruct Hr as (mid & Hcont & -> & Hm).
    rewrite (IH _ {| rendering := rendering t; awaiting := call;
                     continuation := rest |});
      cbn [fst snd settled tasks log rendering continuation]; auto.
    + rewrite Hcont, !trace_app. cbn [trace map app].
      rewrite <- !app_assoc. reflexivity.
    + rewrite Hcont, hostCalls_app, Hm in Hk. cbn in Hk. lia.
  - destruct Hr as [_ Hn]. rewrite Hn in Hk. discriminate Hk.
Qed.

(** The whole of a cycle that has just started, when its calls all
    resolve and nothing is pending. *)
Lemma started_cycle_renders (st : Coalescer) (params : BrowserActionState)
  (call : HostCall) (rest : list Instr) (before : list LogEntry) :
  doUpdateBrowserAction env params = await call :: rest ->
  tasks st = [{| rendering := params; awaiting := call;
                 continuation := rest |}] ->
  currentUpdate st = Some None ->
  log st = before ++ [CycleStarted params; HostCalled call] ->
  run env st
    (repeat (Resolved 0)
       (length (hostCalls (doUpdateBrowserAction env params))))
  = {| currentUpdate := None; tasks := [];
       log := before
                ++ CycleStarted params
                :: trace (doUpdateBrowserAction env params)
                ++ [CycleEnded params true] |}.
Proof.
  intros Hb Ht Hc Hl. rewrite Hb. cbn [hostCalls length].
  rewrite (resolve_all (length (hostCalls rest)) st _ Ht Hc eq_refl).
  cbn [rendering continuation]. rewrite Hl, <- app_assoc. reflexivity.
Qed.

(** C1.  In every reachable state at most one loop is suspended, and at
    most one cycle has started and not ended.  Snapshots submitted while
    a cycle is running start no cycle and make no host call; when the
    running cycle ends, one cycle starts, for the snapshot submitted
    last, and without a further submission no other cycle follows it.
    That cycle is [doUpdateBrowserAction] of the last snapshot: its first
    call has been made when the cycle starts, and when its calls resolve
    the host has seen every call of it, in order, and the loop is
    idle. *)
Theorem at_most_one_cycle_in_flight :
  (forall events,
      let st := run env initial events in
      (length (tasks st) <= 1)%nat
      /\ inFlight (log st) = Z.of_nat (length (tasks st)))
  /\ (forall st events earlier latest,
         reachable env st -> tasks st <> [] ->
         submitted events = earlier ++ [latest] ->
         let st' := run env st events in
         cyclesEnded (log st') = cyclesEnded (log st) ->
         cyclesStarted (log st') = cyclesStarted (log st)
         /\ currentUpdate st' = Some (Some latest)
         /\ forall e,
             cyclesEnded (log (step env st' e)) <> cyclesEnded (log st') ->
             cyclesStarted (log (step env st' e))
             = cyclesStarted (log st) ++ [latest]
             /\ (exists t, tasks (step env st' e) = [t]
                           /\ rendering t = latest)
             /\ (forall later,
                    submitted later = [] ->
                    cyclesStarted (log (run env (step env st' e) later))
                    = cyclesStarted (log st) ++ [latest])
             /\ exists t ended,
                 tasks (step env st' e) = [t]
                 /\ rendering t = latest
                 /\ doUpdateBrowserAction env latest
                    = await (awaiting t) :: continuation t
                 /\ log (step env st' e)
                    = log st' ++ ended
                        ++ [CycleStarted latest; HostCalled (awaiting t)]
                 /\ run env (step env st' e)
                      (repeat (Resolved 0)
                         (length (hostCalls
                                    (doUpdateBrowserAction env latest))))
                    = {| currentUpdate := None; tasks := [];
                         log := log st' ++ ended
                                  ++ CycleStarted latest
                                  :: trace (doUpdateBrowserAction env latest)
                                  ++ [CycleEnded latest true] |}).
Proof.
  split.
  - intros events st.
    assert (Hp : Phase st) by (apply reachable_phase; now exists events).
    destruct Hp as [_ -> -> | next t _ -> ->]; cbn; split; auto.
  - intros st events earlier latest Hr Hrun Hsub st' Hq. subst st'.
    pose proof (reachable_phase st Hr) as Hp.
    destruct Hp as [_ Ht _ | next t Hc Ht Hf]; [now elim Hrun|].
    destruct (run_quiet events st next t (Running st next t Hc Ht Hf)
                Hc Ht Hq) as (Hs & (t' & Ht' & _) & Hc').
    unfold pendingAfter in Hc'.
    rewrite Hsub, map_app in Hc'. cbn [map] in Hc'.
    rewrite last_last in Hc'.
    split; [exact Hs | split; [exact Hc'|]].
    intros e He.
    destruct (step_running (run env st events) e (Some latest) t' Hc' Ht')
      as [(Hsame & _) | (_ & _ & Hst & Hcu & Hts)]; [now elim He|].
    rewrite Hst, Hs. split; [reflexivity | split; [exact Hts|]].
    split.
    + intros later Hl.
      rewrite run_no_submission; auto.
      * congruence.
      * apply step_phase, run_phase, (Running st next t Hc Ht Hf).
    + destruct (step_running_end (run env st events) e latest t' Hc' Ht' He)
        as (call & rest & entries & ok & Hb & _ & _ & Hstep).
      eexists {| rendering := latest; awaiting := call; continuation := rest |},
        (entries ++ [CycleEnded (rendering t') ok]).
      rewrite Hstep. cbn [tasks log rendering awaiting continuation].
      repeat split; auto.
      * now rewrite <- !app_assoc.
      * rewrite (started_cycle_renders _ latest call rest
                   (log (run env st events) ++ entries
                      ++ [CycleEnded (rendering t') ok]) Hb);
          cbn [tasks currentUpdate log]; auto.
        -- now rewrite <- !app_assoc.
        -- now rewrite <- !app_assoc.
Qed.

(** C7.  When the call a cycle awaits is rejected, the exception ends
    that cycle and nothing else: no further call of the failed cycle is
    made, and the loop looks for a pending snapshot as it does after a
    success.  If there is one, its cycle starts, which is
    [doUpdateBrowserAction] of that snapshot: the first call of it has
    been made, and when its calls resolve the host has seen every call
    of it and the loop is idle.  If there is none, [currentUpdate] is
    reset to [undefined], no loop is left suspended, and the next
    submission starts [doUpdateBrowserAction] of its snapshot. *)
Theorem failure_is_swallowed (events : list Event) (t : Task) :
  let st := run env initial events in
  let st' := step env st (Rejected 0) in
  tasks st = [t] ->
  match currentUpdate st with
  | Some (Some next) =>
      currentUpdate st' = Some None
      /\ exists t',
          tasks st' = [t']
          /\ rendering t' = next
          /\ doUpdateBrowserAction env next
             = await (awaiting t') :: continuation t'
          /\ log st'
             = log st ++ [CycleEnded (rendering t) false; CycleStarted next;
                          HostCalled (awaiting t')]
          /\ run env st'
               (repeat (Resolved 0)
                  (length (hostCalls (doUpdateBrowserAction env next))))
             = {| currentUpdate := None; tasks := [];
                  log := log st
                           ++ CycleEnded (rendering t) false
                           :: CycleStarted next
                           :: trace (doUpdateBrowserAction env next)
                           ++ [CycleEnded next true] |}
  | Some None =>
      log st' = log st ++ [CycleEnded (rendering t) false]
      /\ currentUpdate st' = None
      /\ tasks st' = []
      /\ forall params,
          cyclesStarted (log (step env st' (Submit params)))
          = cyclesStarted (log st) ++ [params]
          /\ exists t',
              tasks (step env st' (Submit params)) = [t']
              /\ rendering t' = params
              /\ doUpdateBrowserAction env params
                 = await (awaiting t') :: continuation t'
              /\ log (step env st' (Submit params))
                 = log st' ++ [CycleStarted params; HostCalled (awaiting t')]
  | None => False
  end.
Proof.
  intros st st' Ht. subst st'.
  assert (Hp : Phase st) by (apply reachable_phase; now exists events).
  destruct Hp as [_ Ht' _ | next t0 Hc _ _]; [congruence|].
  rewrite Hc. destruct next as [next|].
  - assert (He : cyclesEnded (log (step env st (Rejected 0)))
                 <> cyclesEnded (log st)).
    { destruct (step_running st (Rejected 0) (Some next) t Hc Ht)
        as [(_ & _ & _ & Hcu) | (Hn & _)]; [|lia].
      rewrite (step_rejected st t Ht), settled_end, Hc in Hcu.
      destruct (afterTry_next (rendering t) next false (log st ++ []))
        as (t' & call & _ & Ha).
      rewrite Ha in Hcu. discriminate Hcu. }
    destruct (step_running_end st (Rejected 0) next t Hc Ht He)
      as (call & rest & entries & ok & Hb & _ & Hrej & Hstep).
    destruct (Hrej eq_refl) as [-> ->].
    rewrite Hstep. cbn [currentUpdate tasks log app].
    split; [reflexivity|].
    exists {| rendering := next; awaiting := call; continuation := rest |}.
    cbn [rendering awaiting continuation]. repeat split; auto.
    rewrite (started_cycle_renders _ next call rest
               (log st ++ [CycleEnded (rendering t) false]) Hb);
      cbn [tasks currentUpdate log]; auto.
    + now rewrite <- !app_assoc.
    + now rewrite <- !app_assoc.
  - rewrite (step_rejected st t Ht), settled_end, Hc.
    cbn [log currentUpdate tasks app]. repeat split.
    + unfold step. cbn [currentUpdate log tasks].
      destruct (iteration_first params
                  (log st ++ [CycleEnded (rendering t) false]))
        as (call & rest & _ & ->).
      cbn [log]. rewrite !cyclesStarted_app. cbn. now rewrite app_nil_r.
    + unfold step. cbn [currentUpdate log tasks].
      destruct (iteration_first params
                  (log st ++ [CycleEnded (rendering t) false]))
        as (call & rest & Hb & ->).
      cbn [tasks app option_list log].
      exists {| rendering := params; awaiting := call; continuation := rest |}.
      cbn [rendering awaiting continuation]. auto.
Qed.

(** X2.  The last cycle is the one of the latest snapshot.  When no
    cycle is running, the log ends with the cycle of the snapshot that
    was submitted last.  If that cycle ended well, the host has seen
    every call of [doUpdateBrowserAction] for that snapshot, in order;
    if one of its calls was rejected, the host has seen its calls up to
    that one and none after it, and the loop does not try again. *)
Theorem last_cycle_is_latest_snapshot (events : list Event)
  (latest : BrowserActionState) :
  let st := run env initial events in
  tasks st = [] ->
  lastOf (submitted events) = Some latest ->
  lastOf (cyclesStarted (log st)) = Some latest
  /\ exists before shown ok,
      CycleLog env before
      /\ log st = before ++ CycleStarted latest :: shown
                    ++ [CycleEnded latest ok]
      /\ if ok then shown = trace (doUpdateBrowserAction env latest)
         else exists pre call post,
             doUpdateBrowserAction env latest = pre ++ await call :: post
             /\ shown = trace (pre ++ [await call]).
Proof.
  intros st Ht Hlast. subst st.
  pose proof (run_latest events) as Hl. cbv zeta in Hl. rewrite Ht in Hl.
  rewrite Hlast in Hl. split; [exact Hl|].
  pose proof (run_consistent initial events
                (Idle initial eq_refl eq_refl eq_refl) (NoCycle env)) as Hc.
  unfold Consistent in Hc. rewrite Ht in Hc.
  destruct Hc as [| l params Hc | l params pre call post Hc Hb].
  - discriminate Hl.
  - rewrite cyclesStarted_app in Hl. cbn [cyclesStarted] in Hl.
    rewrite cyclesStarted_app, cyclesStarted_trace in Hl. cbn in Hl.
    rewrite lastOf_snoc in Hl. injection Hl as ->.
    exists l, (trace (doUpdateBrowserAction env latest)), true. auto.
  - rewrite cyclesStarted_app in Hl. cbn [cyclesStarted] in Hl.
    rewrite cyclesStarted_app, cyclesStarted_trace in Hl. cbn in Hl.
    rewrite lastOf_snoc in Hl. injection Hl as ->.
    exists l, (trace (pre ++ [await call])), false.
    split; [exact Hc | split; [reflexivity|]]. eauto.
Qed.

Lemma Subsequence_nil {A : Type} (l : list A) : Subsequence [] l.
Proof. induction l; now constructor. Qed.

Lemma Subsequence_app_r {A : Type} (l1 l2 l : list A) :
  Subsequence l1 l2 -> Subsequence l1 (l2 ++ l).
Proof.
  induction 1; cbn; [apply Subsequence_nil | |]; now constructor.
Qed.

Lemma Subsequence_snoc {A : Type} (l1 l2 : list A) (x : A) :
  Subsequence l1 l2 -> Subsequence (l1 ++ [x]) (l2 ++ [x]).
Proof.
  induction 1; cbn; [repeat constructor | |]; now constructor.
Qed.

Lemma Subsequence_app_l {A : Type} (l2 l1 l : list A) :
  Subsequence (l1 ++ l) l2 -> Subsequence l1 l2.
Proof.
  revert l1. induction l2 as [|y l2 IH]; intros l1 H.
  - inversion H as [Hn | |]. destruct l1; [constructor | discriminate Hn].
  - inversion H as [| x k1 k2 Hk | x k1 k2 Hk Hx]; subst.
    + apply sub_skip, IH, Hk.
    + destruct l1 as [|z l1]; [apply Subsequence_nil|].
      injection Hx as -> ->. apply sub_take, IH, Hk.
Qed.

Lemma Subsequence_length {A : Type} (l1 l2 : list A) :
  Subsequence l1 l2 -> (length l1 <= length l2)%nat.
Proof. induction 1; cbn; lia. Qed.

(** The cycles started, and then the pending snapshot, are snapshots that
    were submitted, in the order of their submission. *)
Lemma run_in_order (events : list Event) :
  let st := run env initial events in
  Subsequence (cyclesStarted (log st) ++ pendingOf st) (submitted events).
Proof.
  induction events as [|e events IH] using rev_ind; [constructor|].
  cbv zeta in *. unfold run in *. rewrite fold_left_app. cbn [fold_left].
  fold (run env initial events) in *.
  assert (Hp : Phase (run env initial events))
    by (apply reachable_phase; now exists events).
  rewrite submitted_snoc. unfold pendingOf in *.
  destruct Hp as [Hc Ht _ | next t Hc Ht _]; rewrite Hc in IH.
  - rewrite app_nil_r in IH. destruct e as [params | i | i].
    + destruct (step_submit_idle _ params Hc Ht) as (t & _ & _ & -> & ->).
      rewrite app_nil_r. now apply Subsequence_snoc.
    + rewrite (proj1 (step_idle_settle _ i Ht)), Hc, !app_nil_r.
      exact IH.
    + rewrite (proj2 (step_idle_settle _ i Ht)), Hc, !app_nil_r.
      exact IH.
  - destruct (step_running _ e next t Hc Ht)
      as [(_ & -> & _ & ->) | (_ & He & Hn)].
    + destruct e as [params | i | i].
      * apply Subsequence_snoc. destruct next; [|now rewrite app_nil_r in IH].
        apply (Subsequence_app_l _ _ _ IH).
      * now rewrite app_nil_r.
      * now rewrite app_nil_r.
    + assert (Hsub : submitted events
                       ++ match e with Submit p => [p] | _ => [] end
                     = submitted events)
        by (destruct He as [-> | ->]; apply app_nil_r).
      rewrite Hsub. destruct next as [params|].
      * destruct Hn as (-> & -> & _). now rewrite app_nil_r.
      * destruct Hn as (-> & -> & _). exact IH.
Qed.

(** X9.  Snapshots are rendered in the order of their submission: the
    snapshots for which a cycle was started are snapshots that were
    submitted, in that order, each submission rendered at most once,
    so that there are never more cycles than submissions. *)
Theorem rendered_in_submission_order (events : list Event) :
  let st := run env initial events in
  Subsequence (cyclesStarted (log st)) (submitted events)
  /\ (length (cyclesStarted (log st)) <= length (submitted events))%nat.
Proof.
  intros st. subst st.
  assert (H : Subsequence (cyclesStarted (log (run env initial events)))
                (submitted events))
    by apply (Subsequence_app_l _ _ _ (run_in_order events)).
  split; [exact H | apply Subsequence_length, H].
Qed.

(** A cycle makes at least two host calls and at most seven. *)
Lemma hostCalls_count (params : BrowserActionState) :
  (2 <= length (hostCalls (doUpdateBrowserAction env params)) <= 7)%nat.
Proof.
  rewrite hostCalls_doUpdateBrowserAction.
  unfold overlayUpdateError, setIcon, optional.
  destruct (showUpdateError env (jpdictState params));
    destruct (hasComposeAction env); cbn; lia.
Qed.

Lemma hostCalls_length_app (a b : list Instr) :
  length (hostCalls (a ++ b))
  = (length (hostCalls a) + length (hostCalls b))%nat.
Proof. now rewrite hostCalls_app, length_app. Qed.

Lemma callsLeft_bound (st : Coalescer) :
  Phase st -> Consistent env st -> (callsLeft env st <= 14)%nat.
Proof.
  intros [Hc Ht _ | next t Hc Ht _] Hst; unfold callsLeft, pendingOf;
    rewrite Ht; [lia|].
  unfold Consistent in Hst. rewrite Ht in Hst.
  destruct Hst as (l & before & _ & Hbody & _).
  pose proof (hostCalls_count (rendering t)) as Hn.
  rewrite Hbody, hostCalls_length_app in Hn. cbn [hostCalls length] in Hn.
  rewrite Hc. destruct next as [params|]; cbn [flat_map length].
  - pose proof (hostCalls_count params). rewrite app_nil_r. lia.
  - lia.
Qed.

(** Every settled call brings a running loop nearer to idle. *)
Lemma step_callsLeft (st : Coalescer) (e : Event) :
  Phase st -> settles e ->
  (callsLeft env (step env st e) <= callsLeft env st - 1)%nat.
Proof.
  intros [Hc Ht _ | next t Hc Ht _] He.
  - destruct He as [-> | ->];
      rewrite ?(proj1 (step_idle_settle st 0 Ht)),
        ?(proj2 (step_idle_settle st 0 Ht));
      unfold callsLeft; rewrite Ht; lia.
  - assert (Hend : forall ok entries,
               (callsLeft env (settled env st t ok entries None)
                <= length (flat_map
                             (fun params =>
                                hostCalls (doUpdateBrowserAction env params))
                             (pendingOf st)))%nat).
    { intros ok entries. rewrite settled_end. unfold pendingOf. rewrite Hc.
      destruct next as [params|]; [|cbn; lia].
      unfold afterTry.
      destruct (iteration_first params
                  ((log st ++ entries) ++ [CycleEnded (rendering t) ok]))
        as (call & rest & Hb & ->).
      unfold callsLeft, pendingOf.
      cbn [tasks option_list currentUpdate continuation flat_map length].
      rewrite Hb, app_nil_r. cbn [hostCalls length]. lia. }
    unfold callsLeft at 2. rewrite Ht.
    destruct He as [-> | ->].
    + rewrite (step_resolved st t Ht).
      pose proof (resume_trace (continuation t)) as Hr.
      destruct (resume (continuation t)) as [entries [[call rest]|]];
        cbn [fst snd] in *.
      * destruct Hr as (mid & -> & _ & Hm).
        unfold settled, callsLeft, pendingOf.
        cbn [tasks currentUpdate continuation].
        rewrite hostCalls_length_app, Hm. cbn [hostCalls length]. lia.
      * specialize (Hend true entries). lia.
    + rewrite (step_rejected st t Ht). specialize (Hend false []). lia.
Qed.

Lemma run_callsLeft (settlements : list Event) :
  forall st : Coalescer,
    Phase st -> Forall settles settlements ->
    (callsLeft env (run env st settlements)
     <= callsLeft env st - length settlements)%nat.
Proof.
  induction settlements as [|e settlements IH]; intros st Hp Hs.
  - cbn. lia.
  - inversion Hs as [|? ? He Hs']; subst.
    cbn [run fold_left length]. fold (run env (step env st e) settlements).
    specialize (IH (step env st e) (step_phase st e Hp) Hs').
    pose proof (step_callsLeft st e Hp He). lia.
Qed.

(** X10.  The loop drains.  In any reachable state at most fourteen host
    calls are outstanding: those left of the running cycle and those of
    the cycle of the pending snapshot.  Once the host has settled that
    many calls, by success or by failure and with nothing submitted
    meanwhile, the loop is idle: no loop is suspended and
    [currentUpdate] is [undefined] again. *)
Theorem loop_drains (events settlements : list Event) :
  Forall settles settlements ->
  let st := run env initial events in
  (callsLeft env st <= 14)%nat
  /\ ((callsLeft env st <= length settlements)%nat ->
      tasks (run env st settlements) = []
      /\ currentUpdate (run env st settlements) = None).
Proof.
  intros Hs st. subst st.
  assert (Hp : Phase (run env initial events))
    by (apply reachable_phase; now exists events).
  split.
  { apply callsLeft_bound; [exact Hp|].
    apply run_consistent; [now apply Idle | apply NoCycle]. }
  intros Hn.
  pose proof (run_callsLeft settlements _ Hp Hs) as Hle.
  pose proof (run_phase _ settlements Hp) as [Hc Ht _ | next t Hc Ht _];
    [auto|].
  unfold callsLeft at 1 in Hle. rewrite Ht in Hle. lia.
Qed.

End LoopFacts.

(* ------------------------------------------------------------------ *)
(** ** The update loop on concrete runs *)
(* ------------------------------------------------------------------ *)

(** A cycle for [first] is running when [second] and [third] are
    submitted, the first call of the cycle resolving in between: no cycle
    starts until the running one ends, by success or by failure, and then
    the one cycle that starts renders [third]: when its two calls
    resolve, the host has seen the icon, the badge and the title of
    [third]. *)
Lemma at_most_one_cycle_in_flight_witness :
  let first := snapshot true allOk default in
  let second := snapshot false allOk default in
  let third := snapshot false allOk sky in
  let st := run browserEnv initial [Submit first] in
  let st' := run browserEnv st [Submit second; Resolved 0; Submit third] in
  (reachable browserEnv st /\ tasks st <> []
   /\ cyclesEnded (log st') = cyclesEnded (log st))
  /\ cyclesStarted (log st') = [first]
  /\ currentUpdate st' = Some (Some third)
  /\ cyclesStarted (log (step browserEnv st' (Resolved 0))) = [first; third]
  /\ cyclesStarted (log (step browserEnv st' (Rejected 0))) = [first; third]
  /\ cyclesStarted
       (log (run browserEnv (step browserEnv st' (Resolved 0))
               [Resolved 0; Resolved 0; Resolved 0]))
     = [first; third]
  /\ log (run browserEnv (step browserEnv st' (Rejected 0))
            [Resolved 0; Resolved 0])
     = log st'
         ++ [CycleEnded first false; CycleStarted third;
             HostCalled
               (setIcon_ browserAction (svg "images/10ten-sky-disabled.svg")
                  (Some 7));
             HostCalled (setBadgeText browserAction "" (Some 7));
             TitleRequested (getMessage "command_toggle_disabled" [])
               (Some 7);
             CycleEnded third true].
Proof.
  intros first second third st st'.
  assert (Hr : reachable browserEnv st) by (now exists [Submit first]).
  assert (Ht : tasks st <> []) by discriminate.
  assert (Hq : cyclesEnded (log st') = cyclesEnded (log st)) by reflexivity.
  destruct (at_most_one_cycle_in_flight browserEnv) as [_ H].
  destruct (H st [Submit second; Resolved 0; Submit third] [second] third
              Hr Ht eq_refl Hq) as (Hs & Hc & He).
  split; [auto|]. split; [exact Hs|]. split; [exact Hc|].
  destruct (He (Resolved 0)) as (H1 & _ & H2 & _); [discriminate|].
  destruct (He (Rejected 0)) as (H3 & _); [discriminate|].
  split; [exact H1|]. split; [exact H3|].
  split; [apply H2; reflexivity | reflexivity].
Defined.

(** The first call of a cycle is rejected: with a snapshot pending, the
    cycle of that snapshot starts and, its calls resolving, shows the
    icon, the badge and the title of that snapshot; with none pending,
    the loop is idle again. *)
Lemma failure_is_swallowed_witness :
  let first := snapshot true allOk default in
  let second := snapshot false allOk default in
  let pending :=
    step browserEnv (run browserEnv initial [Submit first; Submit second])
      (Rejected 0) in
  let alone :=
    step browserEnv (run browserEnv initial [Submit first]) (Rejected 0) in
  (cyclesStarted (log pending) = [first; second]
   /\ currentUpdate pending = Some None
   /\ log (run browserEnv pending [Resolved 0; Resolved 0])
      = [CycleStarted first;
         HostCalled (setIcon_ browserAction (svg "images/10ten.svg") (Some 7));
         CycleEnded first false;
         CycleStarted second;
         HostCalled
           (setIcon_ browserAction (svg "images/10ten-disabled.svg") (Some 7));
         HostCalled (setBadgeText browserAction "" (Some 7));
         TitleRequested (getMessage "command_toggle_disabled" []) (Some 7);
         CycleEnded second true])
  /\ (cyclesStarted (log alone) = [first]
      /\ currentUpdate alone = None /\ tasks alone = []).
Proof.
  intros first second pending alone. split.
  - pose proof (failure_is_swallowed browserEnv
                  [Submit first; Submit second] _ eq_refl) as H.
    cbv zeta in H.
    change (currentUpdate
              (run browserEnv initial [Submit first; Submit second]))
      with (Some (Some second)) in H.
    destruct H as (Hc & t' & _ & _ & _ & Hl & Hdone).
    fold pending in Hl, Hc, Hdone.
    split; [rewrite Hl; reflexivity | split; [exact Hc|]].
    change [Resolved 0; Resolved 0]
      with (repeat (Resolved 0)
              (length (hostCalls (doUpdateBrowserAction browserEnv second)))).
    rewrite Hdone. reflexivity.
  - pose proof (failure_is_swallowed browserEnv [Submit first] _ eq_refl)
      as H.
    cbv zeta in H.
    change (currentUpdate (run browserEnv initial [Submit first]))
      with (Some (@None BrowserActionState)) in H.
    destruct H as (Hl & Hc & Ht & _).
    fold alone in Hl, Hc, Ht.
    rewrite Hl. split; [reflexivity | auto].
Defined.

(** Three snapshots, the second dropped.  When the cycle of the third
    runs through, the log ends with every call for the third; when its
    first call is rejected, it ends with that call alone. *)
Lemma last_cycle_is_latest_snapshot_witness :
  let first := snapshot true allOk default in
  let second := snapshot false allOk default in
  let third := snapshot false allOk sky in
  let submissions :=
    [Submit first; Submit second; Resolved 0; Submit third; Resolved 0] in
  let through := submissions ++ [Resolved 0; Resolved 0] in
  let failing := submissions ++ [Rejected 0] in
  (tasks (run browserEnv initial through) = []
   /\ lastOf (submitted through) = Some third)
  /\ lastOf (cyclesStarted (log (run browserEnv initial through)))
     = Some third
  /\ skipn 5 (log (run browserEnv initial through))
     = [CycleStarted third;
        HostCalled
          (setIcon_ browserAction (svg "images/10ten-sky-disabled.svg")
             (Some 7));
        HostCalled (setBadgeText browserAction "" (Some 7));
        TitleRequested (getMessage "command_toggle_disabled" []) (Some 7);
        CycleEnded third true]
  /\ skipn 5 (log (run browserEnv initial failing))
     = [CycleStarted third;
        HostCalled
          (setIcon_ browserAction (svg "images/10ten-sky-disabled.svg")
             (Some 7));
        CycleEnded third false].
Proof.
  intros first second third submissions through failing.
  split; [split; reflexivity|].
  destruct (last_cycle_is_latest_snapshot browserEnv through third
              eq_refl eq_refl) as (Hlast & _).
  split; [exact Hlast | split; reflexivity].
Defined.

(** The first call of a cycle, [setIcon], is rejected: the log shows the
    start of the cycle, that call and the end of the cycle, and neither a
    badge call nor a title request. *)
Lemma log_is_whole_cycles_witness :
  let first := snapshot true allOk default in
  let st := run browserEnv initial [Submit first; Rejected 0] in
  Consistent browserEnv st
  /\ log st
     = [CycleStarted first;
        HostCalled (setIcon_ browserAction (svg "images/10ten.svg") (Some 7));
        CycleEnded first false].
Proof.
  intros first st. split; [|reflexivity].
  apply (log_is_whole_cycles browserEnv [Submit first; Rejected 0]).
Defined.

(** Four snapshots of which the second and the third are dropped. *)
Lemma rendered_in_submission_order_witness :
  let first := snapshot true allOk default in
  let second := snapshot false allOk default in
  let third := snapshot false allOk sky in
  let fourth := snapshot true wordsFailed default in
  let events :=
    [Submit first; Submit second; Submit third; Submit fourth;
     Resolved 0; Resolved 0] in
  cyclesStarted (log (run browserEnv initial events)) = [first; fourth]
  /\ Subsequence [first; fourth] [first; second; third; fourth].
Proof.
  intros first second third fourth events.
  split; [reflexivity|].
  apply (proj1 (rendered_in_submission_order browserEnv events)).
Defined.

(** A cycle is running and a snapshot is pending, in a browser where a
    cycle makes two host calls: four calls are outstanding, and after
    four settled calls, the third of them rejected, the loop is idle. *)
Lemma loop_drains_witness :
  let first := snapshot true allOk default in
  let second := snapshot false allOk default in
  let events := [Submit first; Submit second] in
  let settlements := [Resolved 0; Resolved 0; Rejected 0; Resolved 0] in
  (Forall settles settlements
   /\ callsLeft browserEnv (run browserEnv initial events) = 4%nat)
  /\ tasks (run browserEnv (run browserEnv initial events) settlements) = []
  /\ currentUpdate
       (run browserEnv (run browserEnv initial events) settlements)
     = None.
Proof.
  intros first second events settlements.
  assert (Hs : Forall settles settlements)
    by (repeat constructor; unfold settles; auto).
  split; [split; [exact Hs | reflexivity]|].
  destruct (loop_drains browserEnv events settlements Hs) as [_ H].
  apply H. cbn. lia.
Defined.

(* ================================================================== *)
(** * Properties of the rate limiter *)
(* ================================================================== *)

Section ThrottleFacts.

Import RateLimiter.

Variable Args : Type.
Variable minIntervalMs : Z.

(** A call within the interval of the last execution is deferred: it
    replaces whatever was pending and executes nothing. *)
Lemma call_within (l : Limiter Args) (t0 now : Z) (args : Args) :
  lastRun l = Some t0 ->
  t0 <= now < t0 + minIntervalMs ->
  call minIntervalMs now args l
  = {| lastRun := Some t0; pending := Some args; applied := applied l |}.
Proof.
  intros Hl Hn. unfold call, elapse, timer. rewrite Hl.
  assert (Hd : (t0 + minIntervalMs <=? now) = false) by (apply Z.leb_gt; lia).
  assert (Hw : (now - t0 <? minIntervalMs) = true) by (apply Z.ltb_lt; lia).
  destruct (pending l); rewrite ?Hd, Hl, Hw; reflexivity.
Qed.

Lemma calls_within (requests : list (Z * Args)) :
  forall (l : Limiter Args) (t0 now : Z) (args : Args),
    lastRun l = Some t0 ->
    (forall r, In r (requests ++ [(now, args)]) ->
               t0 <= fst r < t0 + minIntervalMs) ->
    calls minIntervalMs (requests ++ [(now, args)]) l
    = {| lastRun := Some t0; pending := Some args; applied := applied l |}.
Proof.
  induction requests as [|[t a] requests IH]; intros l t0 now args Hl Hin.
  - cbn. apply call_within; [exact Hl|]. apply (Hin (now, args)). now left.
  - change (calls minIntervalMs (((t, a) :: requests) ++ [(now, args)]) l)
      with (calls minIntervalMs (requests ++ [(now, args)])
              (call minIntervalMs t a l)).
    rewrite (call_within l t0 t a Hl)
      by (apply (Hin (t, a)); now left).
    rewrite (IH _ t0 now args); [reflexivity | reflexivity |].
    intros r Hr. apply Hin. now right.
Qed.

(** C8.  After an execution at [t0], calls made within [minIntervalMs]
    of it execute nothing: each replaces the pending invocation, and the
    timer stays armed for [t0 + minIntervalMs].  When it fires the
    effect runs once, with the arguments of the latest call; the
    arguments of the calls before it are dropped. *)
Theorem throttle_defers_to_interval (l : Limiter Args) (t0 : Z)
  (requests : list (Z * Args)) (now : Z) (args : Args) :
  lastRun l = Some t0 ->
  (forall r, In r (requests ++ [(now, args)]) ->
             t0 <= fst r < t0 + minIntervalMs) ->
  let l' := calls minIntervalMs (requests ++ [(now, args)]) l in
  applied l' = applied l
  /\ pending l' = Some args
  /\ timer minIntervalMs l' = Some (t0 + minIntervalMs)
  /\ applied (fire minIntervalMs l')
     = applied l ++ [(t0 + minIntervalMs, args)]
  /\ pending (fire minIntervalMs l') = None
  /\ timer minIntervalMs (fire minIntervalMs l') = None.
Proof.
  intros Hl Hin l'. subst l'. rewrite (calls_within requests l t0 now args Hl Hin).
  repeat split.
Qed.

End ThrottleFacts.

(** Two titles are requested 100 ms apart, 1000 ms and 1100 ms after a
    title was applied, under the interval of 2500 ms: the second of them
    is applied, once, 2500 ms after that application, and the first of
    them never.  The same run from a fresh limiter, the timer left to run
    out. *)
Lemma throttle_defers_to_interval_witness :
  let title (messageName : string) := (getMessage messageName [], Some 7) in
  let afterFirst :=
    RateLimiter.call throttledSetTitle_interval 0
      (title "command_toggle_loading") RateLimiter.fresh in
  let requests :=
    [(1000, title "command_toggle_checking");
     (1100, title "command_toggle_enabled")] in
  (RateLimiter.lastRun afterFirst = Some 0
   /\ forall r, In r requests ->
                0 <= fst r < 0 + throttledSetTitle_interval)
  /\ RateLimiter.applied
       (RateLimiter.fire throttledSetTitle_interval
          (RateLimiter.calls throttledSetTitle_interval requests afterFirst))
     = [(0, title "command_toggle_loading");
        (2500, title "command_toggle_enabled")]
  /\ RateLimiter.applied
       (RateLimiter.settle throttledSetTitle_interval
          ((0, title "command_toggle_loading") :: requests)
          RateLimiter.fresh)
     = [(0, title "command_toggle_loading");
        (2500, title "command_toggle_enabled")].
Proof.
  intros title afterFirst requests.
  assert (Hin : forall r, In r requests ->
                          0 <= fst r < 0 + throttledSetTitle_interval).
  { intros r [<- | [<- | []]]; cbn; unfold throttledSetTitle_interval; lia. }
  split; [split; [reflexivity | exact Hin]|].
  destruct (throttle_defers_to_interval _ throttledSetTitle_interval
              afterFirst 0 [(1000, title "command_toggle_checking")]
              1100 (title "command_toggle_enabled") eq_refl Hin)
    as (_ & _ & _ & Happlied & _).
  split; [exact Happlied | reflexivity].
Defined.
